(** * triage-party: the tag registry and the collection orchestrator

    A shallow embedding of [pkg/tag/tag.go] and [pkg/triage/collection.go].
    Go maps are stdpp [gmap]s, slices are lists, [int], [int64] and
    [time.Duration] are [Z] with the 64-bit wrap-around written out, and
    [float64] is the kernel's binary64 [float]. *)

From Stdlib Require Import ZArith Lia.
From Stdlib Require Import PrimFloat SpecFloat FloatOps Uint63.
From stdpp Require Import gmap strings list.

Local Open Scope string_scope.
Local Open Scope list_scope.
Local Open Scope Z_scope.

(** [m[k]] on a Go [map[string]bool]: a missing key reads as [false]. *)
Definition index (m : gmap string bool) (k : string) : bool :=
  default false (m !! k).

(** The keys a [map[string]bool] reads as [true] are those of [keys]. *)
Definition holds (m : gmap string bool) (keys : list string) : Prop :=
  ∀ k, index m k = true ↔ k ∈ keys.

(** The contract both packages give their de-duplicating loops, in the
    specification's words: of a sequence read through [key], the element
    at a position is retained exactly when no earlier position (and none
    of the keys in [earlier]) carries the same key. *)
Section first_occurrences.

Context {A : Type} (key : A → string).

Fixpoint first_occurrences_from (earlier : list string) (l : list A) : list A :=
  match l with
  | [] => []
  | x :: rest =>
      if decide (key x ∈ earlier) then first_occurrences_from earlier rest
      else x :: first_occurrences_from (earlier ++ [key x]) rest
  end.

Definition first_occurrences (l : list A) : list A := first_occurrences_from [] l.

(** The elements the same reading drops: those whose key an earlier
    position (or [earlier]) already carries. *)
Fixpoint repeated_occurrences_from (earlier : list string) (l : list A) : list A :=
  match l with
  | [] => []
  | x :: rest =>
      if decide (key x ∈ earlier) then x :: repeated_occurrences_from earlier rest
      else repeated_occurrences_from (earlier ++ [key x]) rest
  end.

Definition repeated_occurrences (l : list A) : list A :=
  repeated_occurrences_from [] l.

(** Position [i] of [l] holds [x] and nothing before it has the key of [x]. *)
Definition first_at (l : list A) (i : nat) (x : A) : Prop :=
  l !! i = Some x ∧
  (∀ j y, (j < i)%nat → l !! j = Some y → key y ≠ key x).

End first_occurrences.

(** ** Package tag *)

Module tag.

(** [type Tag struct]. *)
Record Tag := mkTag {
  ID : string;
  Desc : string;
  NeedsComments : bool;
  NeedsReviews : bool;
  NeedsTimeline : bool;
}.

(** A composite literal that names only [ID] and [Desc]: the three flags
    take Go's zero value. *)
Definition simple (id desc : string) : Tag := mkTag id desc false false false.
Definition comment_based (id desc : string) : Tag := mkTag id desc true false false.
Definition timeline_based (id desc : string) : Tag := mkTag id desc false false true.
Definition review_based (id desc : string) : Tag := mkTag id desc false true false.

(* Simple tags *)
Definition Assigned := simple "assigned" "Someone is assigned".
Definition Closed := simple "closed" "This item has been closed".
Definition OpenMilestone :=
  simple "open-milestone" "The issue is associated to an open milestone".
Definition Similar := simple "similar" "Title appears similar to another PR or issue".
Definition Merged := simple "merged" "PR was merged".
Definition Draft := simple "draft" "Draft PR".

(* Comment-based tags *)
Definition Commented := comment_based "commented" "A project member has commented on this".
Definition Send :=
  comment_based "send" "A project member commented more recently than the author".
Definition Recv :=
  comment_based "recv" "The author commented more recently than a project member".
Definition RecvQ :=
  comment_based "recv-q"
    "The author has asked a question since the last project member commented".
Definition AuthorLast := comment_based "author-last" "The last commenter was the original author".
Definition AssigneeUpdated :=
  comment_based "assignee-updated" "Issue has been updated by its assignee".

(* Timeline-based tags *)
Definition XrefApproved := timeline_based "pr-approved" "Last review was an approval".
Definition XrefReviewedWithComment :=
  timeline_based "pr-reviewed-with-comment" "Last review was a comment".
Definition XrefChangesRequested :=
  timeline_based "pr-changes-requested" "Last review was a request for changes".
Definition XrefNewCommits :=
  timeline_based "pr-new-commits" "PR has commits since the last review".
Definition XrefPushedAfterApproval :=
  timeline_based "pr-pushed-after-approval" "PR was pushed to after approval".
Definition XrefUnreviewed := timeline_based "pr-unreviewed" "PR has never been reviewed".

(* Review-based tags *)
Definition Approved := review_based "approved" "Last review was an approval".
Definition ReviewedWithComment :=
  review_based "reviewed-with-comment" "Last review was a comment".
Definition ChangesRequested :=
  review_based "changes-requested" "Last review was a request for changes".
Definition NewCommits := review_based "new-commits" "PR has commits since the last review".
Definition PushedAfterApproval :=
  review_based "pushed-after-approval" "PR was pushed to after approval".
Definition Unreviewed := review_based "unreviewed" "PR has never been reviewed".

(* Special *)
Definition None := mkTag "none" "No tag matched" true true true.

(** Every tag of the package-level [var ( ... )] block, in declaration
    order. *)
Definition declared : list Tag :=
  [ Assigned; Closed; OpenMilestone; Similar; Merged; Draft;
    Commented; Send; Recv; RecvQ; AuthorLast; AssigneeUpdated;
    XrefApproved; XrefReviewedWithComment; XrefChangesRequested;
    XrefNewCommits; XrefPushedAfterApproval; XrefUnreviewed;
    Approved; ReviewedWithComment; ChangesRequested; NewCommits;
    PushedAfterApproval; Unreviewed;
    None ].

(** [var Tags = []Tag{ ... }]. *)
Definition Tags : list Tag :=
  [ Assigned; Closed; OpenMilestone; Similar; Merged; Draft;
    Commented; Send; Recv; RecvQ; AuthorLast; AssigneeUpdated;
    Approved; ReviewedWithComment; ChangesRequested; NewCommits;
    PushedAfterApproval; Unreviewed;
    XrefApproved; XrefReviewedWithComment; XrefChangesRequested;
    XrefNewCommits; XrefPushedAfterApproval; XrefUnreviewed ].

(** [fmt.Sprintf] with a single [%s] verb whose operand is a string. *)
Definition RoleLast (role : string) : Tag :=
  simple (role +:+ "-last") ("The last commenter was a project " +:+ role).

(** The [for _, t := range tags] loop of [Dedup], with the two locals it
    updates. *)
Fixpoint Dedup_loop (tags deduped : list Tag) (seen : gmap string bool) : list Tag :=
  match tags with
  | [] => deduped
  | t :: rest =>
      if index seen (ID t) then Dedup_loop rest deduped seen
      else Dedup_loop rest (deduped ++ [t]) (<[ID t := true]> seen)
  end.

Definition Dedup (tags : list Tag) : list Tag := Dedup_loop tags [] ∅.

#[global] Instance Tag_eq_dec : EqDecision Tag.
Proof. solve_decision. Defined.

End tag.

(** ** Package triage *)

Module triage.

(** *** Machine integers, durations and floats *)

(** A signed 64-bit result needs no trap: Go wraps it around. [int] is
    taken at its 64-bit width. *)
Definition min_int64 : Z := - 2 ^ 63.
Definition max_int64 : Z := 2 ^ 63 - 1.
Definition wrap64 (z : Z) : Z := (z + 2 ^ 63) mod 2 ^ 64 - 2 ^ 63.
Definition int_add (a b : Z) : Z := wrap64 (a + b).
Definition int64_mul (a b : Z) : Z := wrap64 (a * b).

(** [len] of a slice. *)
Definition len {A} (l : list A) : Z := Z.of_nat (length l).

(** [time.Duration] is an [int64] count of nanoseconds. *)
Definition Nanosecond : Z := 1.
Definition Microsecond : Z := 1000 * Nanosecond.
Definition Millisecond : Z := 1000 * Microsecond.
Definition Second : Z := 1000 * Millisecond.
Definition Minute : Z := 60 * Second.
Definition Hour : Z := 60 * Minute.

(** [float64(n)] for an [int]: round to nearest, ties to even. The kernel's
    conversion takes a 63-bit natural, so the sign is handled apart, and
    [-2^63], whose opposite has no 63-bit form, is doubled from [-2^62]. *)
Definition float64_of_int (n : Z) : float :=
  if n =? min_int64 then
    PrimFloat.opp (PrimFloat.mul (PrimFloat.of_uint63 (Uint63.of_Z (2 ^ 62))) 2)
  else if n <? 0 then PrimFloat.opp (PrimFloat.of_uint63 (Uint63.of_Z (- n)))
  else PrimFloat.of_uint63 (Uint63.of_Z n).

(** The integer a finite float becomes when its fraction is discarded
    (rounding toward zero); none for an infinity or a NaN. *)
Definition SFtrunc (x : spec_float) : option Z :=
  match x with
  | S754_zero _ => Some 0
  | S754_finite s m e =>
      let sm := if s then Z.neg m else Z.pos m in
      Some (if 0 <=? e then sm * 2 ^ e else Z.quot sm (2 ^ (- e)))
  | S754_infinity _ | S754_nan => None
  end.

(** The mathematical floor of a finite float (rounding toward minus
    infinity): the word the specification uses for the conversion. *)
Definition SFfloor (x : spec_float) : option Z :=
  match x with
  | S754_zero _ => Some 0
  | S754_finite s m e =>
      let sm := if s then Z.neg m else Z.pos m in
      Some (if 0 <=? e then sm * 2 ^ e else Z.div sm (2 ^ (- e)))
  | S754_infinity _ | S754_nan => None
  end.

Definition float64_trunc (x : float) : option Z := SFtrunc (Prim2SF x).
Definition float64_floor (x : float) : option Z := SFfloor (Prim2SF x).

(** *** Errors, formatted values and the observable trace *)

(** An [error] is either one a collaborator made (its text is all that is
    known of it) or one built by [fmt.Errorf], kept as the format and its
    operands. *)
Inductive error :=
| ErrorString (msg : string)
| Errorf (format : string) (args : list value)
with value :=
| VString (s : string)
| VStrings (l : list string)
| VInt (n : Z)
| VFloat (f : float)
| VDuration (d : Z)
| VError (e : error).

Inductive severity := INFO | WARNING | ERROR.

Section Model.

(** What the package takes from elsewhere in the repository and from the
    Go implementation:
    - [Conversation], the element type of [RuleResult.Items];
    - [Context], Go's [context.Context];
    - [World], whatever state the rule engine, the search cache and the
      clock live in;
    - [hubbub_PullRequest], the constant [hubbub.PullRequest];
    - [unrepresentable], the implementation-dependent [int64] that the
      conversion of a float outside the [int64] range (or of a NaN) yields;
    - [parseRepo], the repository-reference parser;
    - [time_Now], reading the clock. *)
Variables Conversation Context World : Type.
Variable hubbub_PullRequest : string.
Variable unrepresentable : float -> Z.
Variable parseRepo : string -> (string * string) + error.
Variable time_Now : World -> Z * World.

(** [int64(x)] for a [float64]: the fraction is discarded; a value the
    type cannot hold converts without a fault to a result the language
    leaves to the implementation. *)
Definition int64_of_float64 (x : float) : Z :=
  match float64_trunc x with
  | Some z =>
      if (min_int64 <=? z) && (z <=? max_int64) then z
      else wrap64 (unrepresentable x)
  | None => wrap64 (unrepresentable x)
  end.

(** [type Collection struct]. *)
Record Collection := mkCollection {
  ID : string;
  Name : string;
  Description : string;
  RuleIDs : list string;
  Dedup : bool;
  Hidden : bool;
  UsedForStats : bool;
}.

(** Modelled from the spec: the struct [Rule], declared in another file
    of the package, with the fields this file reads - the name, the item
    kind the rule declares and the repositories it searches. *)
Record Rule := mkRule {
  Rule_Name : string;
  Rule_Type : string;
  Rule_Repos : list string;
}.

(** Modelled from the spec: the struct [RuleResult], declared in another
    file of the package - a reference to the rule, the sequence of
    matched items and the three aggregates in fractional days. *)
Record RuleResult := mkRuleResult {
  RuleResult_Rule : Rule;
  RuleResult_Items : list Conversation;
  RuleResult_TotalAgeDays : float;
  RuleResult_TotalCurrentHoldDays : float;
  RuleResult_TotalAccumulatedHoldDays : float;
}.

(** [type CollectionResult struct]; instants are nanosecond counts. *)
Record CollectionResult := mkCollectionResult {
  Time : Z;
  RuleResults : list RuleResult;
  Total : Z;
  TotalPullRequests : Z;
  TotalIssues : Z;
  AvgAge : Z;
  AvgCurrentHold : Z;
  AvgAccumulatedHold : Z;
  TotalAgeDays : float;
  TotalCurrentHoldDays : float;
  TotalAccumulatedHoldDays : float;
}.

(** [&CollectionResult{}]: every field at its zero value. *)
Definition zero_CollectionResult : CollectionResult :=
  mkCollectionResult 0 [] 0 0 0 0 0 0 0%float 0%float 0%float.

(** What a run does that its caller can observe besides the returned
    values: the lines it logs and the calls it makes to the rule engine
    and to the search cache, each with the error the call came back with.
    [EvExecuteRule tid t err] is the call [p.ExecuteRule(ctx, t, seen)] of
    the iteration for identifier [tid]. *)
Inductive event :=
| Klog (sev : severity) (format : string) (args : list value)
| EvExecuteRule (tid : string) (t : Rule) (err : option error)
| EvFlushSearchCache (org project : string) (minAge : Z) (err : option error).

(** Modelled from the spec: the receiver [p *Party], declared in another
    file of the package, as far as this file uses it - the loaded
    collections and the three collaborators behind [p.LookupRule],
    [p.ExecuteRule] and [p.engine.FlushSearchCache]. The rules are loaded
    before a run and do not change during it, so [LookupRule] is a
    function of the identifier. A collaborator that returns no error
    returns a usable result. [ExecuteRule] may update the [seen] map it
    is handed. *)
Record Party := mkParty {
  collections : list Collection;
  LookupRule : string -> Rule + error;
  ExecuteRule :
    Context -> Rule -> gmap string Rule -> World ->
    (RuleResult + error) * gmap string Rule * World;
  engine_FlushSearchCache : string -> string -> Z -> World -> option error * World;
}.

(** Computations that read and change the world and extend the trace. *)
Definition M (A : Type) : Type := World -> A * World * list event.

(** The three components of a finished computation. *)
Definition returned {A} (x : A * World * list event) : A := x.1.1.
Definition world_after {A} (x : A * World * list event) : World := x.1.2.
Definition trace {A} (x : A * World * list event) : list event := x.2.

Definition ret {A} (a : A) : M A := fun w => (a, w, []).

Definition bind {A B} (m : M A) (f : A -> M B) : M B :=
  fun w =>
    let '(a, w1, t1) := m w in
    let '(b, w2, t2) := f a w1 in
    (b, w2, t1 ++ t2).

Definition klog (sev : severity) (format : string) (args : list value) : M unit :=
  fun w => (tt, w, [Klog sev format args]).

Definition now : M Z := fun w => let '(t, w') := time_Now w in (t, w', []).

(** The call [p.ExecuteRule(ctx, t, seen)] made for identifier [tid]: what
    it returns, the [seen] map as it leaves it, and its entry in the
    trace. *)
Definition call_ExecuteRule (p : Party) (ctx : Context) (tid : string) (t : Rule)
    (seen : gmap string Rule) : M ((RuleResult + error) * gmap string Rule) :=
  fun w =>
    let '(ro, seen', w') := ExecuteRule p ctx t seen w in
    ((ro, seen'), w',
     [EvExecuteRule tid t match ro with inl _ => None | inr err => Some err end]).

(** The call [p.engine.FlushSearchCache(org, project, minAge)]. *)
Definition call_FlushSearchCache (p : Party) (org project : string) (minAge : Z)
  : M (option error) :=
  fun w =>
    let '(e, w') := engine_FlushSearchCache p org project minAge w in
    (e, w', [EvFlushSearchCache org project minAge e]).

Definition lift {A} (x : A * list event) : M A := fun w => (x.1, w, x.2).

Notation "'let*' x ':=' m 'in' k" := (bind m (fun x => k))
  (at level 10, x name, m at level 99, k at level 200).
Notation "m ';;' k" := (bind m (fun _ => k))
  (at level 100, k at level 200, right associativity).

(** [time.Since(start)]: the clock is read again; [Time.Sub] saturates at
    the ends of the [int64] range. *)
Definition time_Since (start : Z) : M Z :=
  let* t := now in ret (Z.max min_int64 (Z.min max_int64 (t - start))).

(** *** Aggregation *)

Definition avgDayDuration (total : float) (count : Z) : Z :=
  int64_mul
    (int64_of_float64 (PrimFloat.mul (PrimFloat.div total (float64_of_int count)) 24))
    Hour.

(** [oc.Rule.Type == hubbub.PullRequest]. *)
Definition is_pull_request (oc : RuleResult) : bool :=
  String.eqb (Rule_Type (RuleResult_Rule oc)) hubbub_PullRequest.

(** One iteration of the [for _, oc := range os] loop of
    [SummarizeCollectionResult]. *)
Definition Summarize_step (r : CollectionResult) (oc : RuleResult) : CollectionResult :=
  let n := len (RuleResult_Items oc) in
  let pr := is_pull_request oc in
  {| Time := Time r;
     RuleResults := RuleResults r ++ [oc];
     Total := int_add (Total r) n;
     TotalPullRequests :=
       if pr then int_add (TotalPullRequests r) n else TotalPullRequests r;
     TotalIssues := if pr then TotalIssues r else int_add (TotalIssues r) n;
     AvgAge := AvgAge r;
     AvgCurrentHold := AvgCurrentHold r;
     AvgAccumulatedHold := AvgAccumulatedHold r;
     TotalAgeDays := PrimFloat.add (TotalAgeDays r) (RuleResult_TotalAgeDays oc);
     TotalCurrentHoldDays :=
       PrimFloat.add (TotalCurrentHoldDays r) (RuleResult_TotalCurrentHoldDays oc);
     TotalAccumulatedHoldDays :=
       PrimFloat.add (TotalAccumulatedHoldDays r)
         (RuleResult_TotalAccumulatedHoldDays oc) |}.

(** The loop, with the line each iteration logs before it folds. *)
Fixpoint Summarize_loop (os : list RuleResult) (r : CollectionResult)
  : CollectionResult * list event :=
  match os with
  | [] => (r, [])
  | oc :: rest =>
      let '(r', log) := Summarize_loop rest (Summarize_step r oc) in
      (r', Klog INFO "total age is %.1f days" [VFloat (TotalAgeDays r)] :: log)
  end.

Definition set_averages (r : CollectionResult) : CollectionResult :=
  {| Time := Time r;
     RuleResults := RuleResults r;
     Total := Total r;
     TotalPullRequests := TotalPullRequests r;
     TotalIssues := TotalIssues r;
     AvgAge := avgDayDuration (TotalAgeDays r) (Total r);
     AvgCurrentHold := avgDayDuration (TotalCurrentHoldDays r) (Total r);
     AvgAccumulatedHold := avgDayDuration (TotalAccumulatedHoldDays r) (Total r);
     TotalAgeDays := TotalAgeDays r;
     TotalCurrentHoldDays := TotalCurrentHoldDays r;
     TotalAccumulatedHoldDays := TotalAccumulatedHoldDays r |}.

(** [SummarizeCollectionResult] returns the result and the lines it
    logged; it has no error result and touches nothing else. *)
Definition SummarizeCollectionResult (os : list RuleResult)
  : CollectionResult * list event :=
  let '(r, log) := Summarize_loop os zero_CollectionResult in
  let log :=
    Klog INFO "Summarizing collection result with %s rules..." [VInt (len os)] :: log in
  if Total r =? 0 then (r, log ++ [Klog WARNING "no summary, total=0" []])
  else (set_averages r, log).

Definition set_Time (t : Z) (r : CollectionResult) : CollectionResult :=
  {| Time := t;
     RuleResults := RuleResults r;
     Total := Total r;
     TotalPullRequests := TotalPullRequests r;
     TotalIssues := TotalIssues r;
     AvgAge := AvgAge r;
     AvgCurrentHold := AvgCurrentHold r;
     AvgAccumulatedHold := AvgAccumulatedHold r;
     TotalAgeDays := TotalAgeDays r;
     TotalCurrentHoldDays := TotalCurrentHoldDays r;
     TotalAccumulatedHoldDays := TotalAccumulatedHoldDays r |}.

(** *** Executing a collection *)

(** The [for _, tid := range s.RuleIDs] loop of [ExecuteCollection] with
    its three locals [os], [seen] and [seenRule]: the rule results when
    the loop runs to its end, the error of the [return nil, ...] that left
    it otherwise. *)
Fixpoint ExecuteCollection_loop (p : Party) (ctx : Context) (s : Collection)
    (tids : list string) (os : list RuleResult)
    (seen : gmap string Rule) (seenRule : gmap string bool)
  : M (list RuleResult + error) :=
  match tids with
  | [] => ret (inl os)
  | tid :: rest =>
      if index seenRule tid then
        klog ERROR "collection %q has a duplicate rule: %q - ignoring"
          [VString (ID s); VString tid] ;;
        ExecuteCollection_loop p ctx s rest os seen seenRule
      else
        let seenRule := <[tid := true]> seenRule in
        match LookupRule p tid with
        | inr err => ret (inr err)
        | inl t =>
            let* res := call_ExecuteRule p ctx tid t seen in
            match res.1 with
            | inr err =>
                ret (inr (Errorf "rule %q: %v" [VString (Rule_Name t); VError err]))
            | inl ro =>
                ExecuteCollection_loop p ctx s rest (os ++ [ro]) res.2 seenRule
            end
        end
  end.

(** Go's result pair of a [CollectionResult] pointer and an [error]:
    [None] is [nil]. *)
Definition ExecuteCollection (p : Party) (ctx : Context) (s : Collection)
  : M (option CollectionResult * option error) :=
  klog INFO ">>> Executing collection %q: %s" [VString (ID s); VStrings (RuleIDs s)] ;;
  let* start := now in
  let* res := ExecuteCollection_loop p ctx s (RuleIDs s) [] ∅ ∅ in
  match res with
  | inr err => ret (None, Some err)
  | inl os =>
      let* r := lift (SummarizeCollectionResult os) in
      let* t := now in
      let r := set_Time t r in
      let* d := time_Since start in
      klog INFO "<<< Collection %q took %s to execute" [VString (ID s); VDuration d] ;;
      ret (Some r, None)
  end.

(** *** Collections and the search cache *)

Definition ListCollections (p : Party) : list Collection * option error :=
  (collections p, None).

Definition zero_Collection : Collection := mkCollection "" "" "" [] false false false.

Fixpoint LookupCollection_loop (cs : list Collection) (id : string)
  : Collection * option error :=
  match cs with
  | [] => (zero_Collection, Some (Errorf "%q not found" [VString id]))
  | s :: rest =>
      if String.eqb (ID s) id then (s, None) else LookupCollection_loop rest id
  end.

Definition LookupCollection (p : Party) (id : string) : Collection * option error :=
  LookupCollection_loop (collections p) id.

(** The inner loop [for _, r := range t.Repos] of [FlushSearchCache]: the
    error of a [return err] that left it, if any, and the [flushed] map. *)
Fixpoint FlushSearchCache_repos (p : Party) (minAge : Z) (repos : list string)
    (flushed : gmap string bool) : M (option error * gmap string bool) :=
  match repos with
  | [] => ret (None, flushed)
  | r :: rest =>
      if negb (index flushed r) then
        klog INFO "Flushing search cache for %s ..." [VString r] ;;
        match parseRepo r with
        | inr err => ret (Some err, flushed)
        | inl (org, project) =>
            let* e := call_FlushSearchCache p org project minAge in
            match e with
            | Some err =>
                klog WARNING "flush for %s/%s: %v"
                  [VString org; VString project; VError err]
            | None => ret tt
            end ;;
            FlushSearchCache_repos p minAge rest (<[r := true]> flushed)
        end
      else FlushSearchCache_repos p minAge rest flushed
  end.

(** The outer loop [for _, tid := range s.RuleIDs]. *)
Fixpoint FlushSearchCache_rules (p : Party) (minAge : Z) (tids : list string)
    (flushed : gmap string bool) : M (option error) :=
  match tids with
  | [] => ret None
  | tid :: rest =>
      match LookupRule p tid with
      | inr err => ret (Some err)
      | inl t =>
          let* res := FlushSearchCache_repos p minAge (Rule_Repos t) flushed in
          match res.1 with
          | Some err => ret (Some err)
          | None => FlushSearchCache_rules p minAge rest res.2
          end
      end
  end.

Definition FlushSearchCache (p : Party) (id : string) (minAge : Z) : M (option error) :=
  match LookupCollection p id with
  | (_, Some err) => ret (Some err)
  | (s, None) => FlushSearchCache_rules p minAge (RuleIDs s) ∅
  end.

(** *** What the statements below count *)

(** The items of the rule results that satisfy [f], as a mathematical
    integer. *)
Fixpoint item_count_if (f : RuleResult -> bool) (os : list RuleResult) : Z :=
  match os with
  | [] => 0
  | oc :: rest =>
      (if f oc then len (RuleResult_Items oc) else 0) + item_count_if f rest
  end.

Definition item_count (os : list RuleResult) : Z := item_count_if (fun _ => true) os.

(** The value whose integer part [avgDayDuration] multiplies by [Hour]. *)
Definition fractional_hours (total : float) (count : Z) : float :=
  PrimFloat.mul (PrimFloat.div total (float64_of_int count)) 24.

(** The identifiers [p.ExecuteRule] was called for, in call order. *)
Definition executed (tr : list event) : list string :=
  flat_map (fun e => match e with EvExecuteRule tid _ _ => [tid] | _ => [] end) tr.

(** How many times [p.ExecuteRule] was called for [tid]. *)
Definition evaluations (tid : string) (tr : list event) : nat :=
  length (filter (fun x => x = tid) (executed tr)).

(** The lines logged at a severity. *)
Definition logged (sev : severity) (tr : list event) : list (string * list value) :=
  flat_map
    (fun e =>
       match e, sev with
       | Klog INFO f a, INFO | Klog WARNING f a, WARNING | Klog ERROR f a, ERROR =>
           [(f, a)]
       | _, _ => []
       end) tr.

Definition duplicate_line (s : Collection) (tid : string) : string * list value :=
  ("collection %q has a duplicate rule: %q - ignoring", [VString (ID s); VString tid]).

(** The flush requests made to the search cache, in call order. *)
Definition flushes (tr : list event) : list (string * string * Z) :=
  flat_map
    (fun e =>
       match e with
       | EvFlushSearchCache org project minAge _ => [(org, project, minAge)]
       | _ => []
       end) tr.

(** The repository references of the rules that [tids] resolve to, rule by
    rule, in order. *)
Definition repos_of (p : Party) (tids : list string) : list string :=
  flat_map
    (fun tid =>
       match LookupRule p tid with
       | inl t => Rule_Repos t
       | inr _ => []
       end) tids.

(** [c] is the request for reference [r]: its parsed organization and
    project, and [minAge]. *)
Definition is_flush_of (minAge : Z) (r : string) (c : string * string * Z) : Prop :=
  parseRepo r = inl (c.1.1, c.1.2) /\ c.2 = minAge.

Definition with_RuleIDs (s : Collection) (tids : list string) : Collection :=
  {| ID := ID s; Name := Name s; Description := Description s; RuleIDs := tids;
     Dedup := Dedup s; Hidden := Hidden s; UsedForStats := UsedForStats s |}.

(** The identifier names a rule; the reference parses. *)
Definition resolves (p : Party) (tid : string) : Prop :=
  exists t, LookupRule p tid = inl t.

Definition parses (r : string) : Prop :=
  exists org project, parseRepo r = inl (org, project).

(** The flush requests the search cache answered with an error, in call
    order, and the line [FlushSearchCache] logs for one. *)
Definition failed_flushes (tr : list event) : list (string * string * error) :=
  flat_map
    (fun e =>
       match e with
       | EvFlushSearchCache org project _ (Some err) => [(org, project, err)]
       | _ => []
       end) tr.

Definition flush_warning (c : string * string * error) : string * list value :=
  ("flush for %s/%s: %v", [VString c.1.1; VString c.1.2; VError c.2]).

(** The error [LookupCollection] returns for an identity it does not
    find. *)
Definition not_found (id : string) : error := Errorf "%q not found" [VString id].

End Model.

Arguments mkRuleResult {Conversation}.
Arguments RuleResult_Rule {Conversation}.
Arguments RuleResult_Items {Conversation}.
Arguments RuleResult_TotalAgeDays {Conversation}.
Arguments RuleResult_TotalCurrentHoldDays {Conversation}.
Arguments RuleResult_TotalAccumulatedHoldDays {Conversation}.
Arguments mkCollectionResult {Conversation}.
Arguments Time {Conversation}.
Arguments RuleResults {Conversation}.
Arguments Total {Conversation}.
Arguments TotalPullRequests {Conversation}.
Arguments TotalIssues {Conversation}.
Arguments AvgAge {Conversation}.
Arguments AvgCurrentHold {Conversation}.
Arguments AvgAccumulatedHold {Conversation}.
Arguments TotalAgeDays {Conversation}.
Arguments TotalCurrentHoldDays {Conversation}.
Arguments TotalAccumulatedHoldDays {Conversation}.
Arguments zero_CollectionResult {Conversation}.
Arguments mkParty {Conversation Context World}.
Arguments collections {Conversation Context World}.
Arguments LookupRule {Conversation Context World}.
Arguments ExecuteRule {Conversation Context World}.
Arguments engine_FlushSearchCache {Conversation Context World}.
Arguments returned {World A}.
Arguments world_after {World A}.
Arguments trace {World A}.
Arguments ret {World A}.
Arguments bind {World A B}.
Arguments klog {World}.
Arguments now {World}.
Arguments call_ExecuteRule {Conversation Context World}.
Arguments call_FlushSearchCache {Conversation Context World}.
Arguments lift {World A}.
Arguments time_Since {World}.
Arguments is_pull_request {Conversation}.
Arguments Summarize_step {Conversation}.
Arguments Summarize_loop {Conversation}.
Arguments set_averages {Conversation}.
Arguments SummarizeCollectionResult {Conversation}.
Arguments set_Time {Conversation}.
Arguments ExecuteCollection_loop {Conversation Context World}.
Arguments ExecuteCollection {Conversation Context World}.
Arguments ListCollections {Conversation Context World}.
Arguments LookupCollection {Conversation Context World}.
Arguments FlushSearchCache_repos {Conversation Context World}.
Arguments FlushSearchCache_rules {Conversation Context World}.
Arguments FlushSearchCache {Conversation Context World}.
Arguments item_count_if {Conversation}.
Arguments item_count {Conversation}.
Arguments repos_of {Conversation Context World}.
Arguments resolves {Conversation Context World}.

End triage.

(** ** Concrete parties and collections

    The inputs the statements below are evaluated on. The world is a
    clock that ticks at every reading and at every rule evaluation. *)

Module scenario.

Import triage.

Definition PullRequest : string := "pull_request".

(** The conversion a 64-bit x86 processor performs: every value outside
    the range becomes the least [int64]. *)
Definition amd64 (_ : float) : Z := min_int64.

Definition clock (w : Z) : Z * Z := (w, w + 1).

Definition parse (r : string) : (string * string) + error :=
  if String.eqb r "org/proj" then inl ("org", "proj")
  else if String.eqb r "org/other" then inl ("org", "other")
  else inr (Errorf "unable to parse %q" [VString r]).

Definition rule_a : Rule := mkRule "Rule A" "pull_request" ["org/proj"].
Definition rule_b : Rule := mkRule "Rule B" "issue" ["org/proj"; "org/other"].
Definition rule_flaky : Rule := mkRule "Flaky" "issue" ["org/other"].
Definition rule_bad : Rule := mkRule "Bad repo" "issue" ["not-a-repo"; "org/proj"].

Definition lookup (tid : string) : Rule + error :=
  if String.eqb tid "a" then inl rule_a
  else if String.eqb tid "b" then inl rule_b
  else if String.eqb tid "flaky" then inl rule_flaky
  else if String.eqb tid "bad" then inl rule_bad
  else inr (Errorf "rule %q is undefined" [VString tid]).

(** Every rule matches one item of age two and a half days, except the
    flaky one, whose evaluation fails. *)
Definition execute (_ : unit) (t : Rule) (seen : gmap string Rule) (w : Z)
  : (RuleResult unit + error) * gmap string Rule * Z :=
  if String.eqb (Rule_Name t) "Flaky" then
    (inr (ErrorString "rate limit exceeded"), seen, w + 1)
  else
    (inl (mkRuleResult t [tt] 2.5%float 0%float 0%float),
     <[Rule_Name t := t]> seen, w + 1).

Definition flush (org project : string) (minAge : Z) (w : Z) : option error * Z :=
  (None, w).

Definition collection (id : string) (tids : list string) : Collection :=
  mkCollection id id "" tids false false false.

Definition duplicated : Collection := collection "duplicated" ["a"; "a"; "b"].
Definition first_broken : Collection := collection "first" ["missing"].
Definition second_broken : Collection := collection "second" ["missing"].
Definition with_flaky : Collection := collection "with-flaky" ["a"; "flaky"; "b"].
Definition bad_repo : Collection := collection "bad-repo" ["bad"].
Definition shared_repo : Collection := collection "shared-repo" ["a"; "b"].

Definition party : Party unit unit Z :=
  mkParty [duplicated; first_broken; second_broken; with_flaky; bad_repo; shared_repo]
    lookup execute flush.

Definition run (s : Collection) :=
  ExecuteCollection PullRequest amd64 clock party tt s 0.

(** One issue said to be a million days old. *)
Definition ancient : list (RuleResult unit) :=
  [mkRuleResult rule_b [tt] 1000000%float 0%float 0%float].

(** Two rule results of ages ten and five days with three items between
    them. *)
Definition ten_and_five : list (RuleResult unit) :=
  [mkRuleResult rule_a [tt; tt] 10%float 0%float 0%float;
   mkRuleResult rule_b [tt] 5%float 0%float 0%float].

(** Two rules that matched nothing. *)
Definition nothing_matched : list (RuleResult unit) :=
  [mkRuleResult rule_a [] 0%float 0%float 0%float;
   mkRuleResult rule_b [] 0%float 0%float 0%float].

Definition summarize (os : list (RuleResult unit)) : CollectionResult unit :=
  (SummarizeCollectionResult PullRequest amd64 os).1.

(** Flushing what is older than an hour. *)
Definition flush_run (id : string) := FlushSearchCache parse party id Hour 0.

(** A collection without rules. *)
Definition no_rules : Collection := collection "no-rules" [].

(** The same party in front of a search cache that refuses every flush. *)
Definition refuse (org project : string) (minAge : Z) (w : Z) : option error * Z :=
  (Some (ErrorString "cache unavailable"), w + 1).

Definition party_without_cache : Party unit unit Z :=
  mkParty (collections party) lookup execute refuse.

End scenario.

(** * Properties *)

Local Set Warnings "-clear-no-such-hyp".

(** ** Go maps used as sets *)

Lemma index_insert (m : gmap string bool) (k k' : string) :
  index (<[k := true]> m) k' = true ↔ k = k' ∨ index m k' = true.
Proof.
  unfold index. destruct (decide (k = k')) as [->|Hne].
  - rewrite lookup_insert_eq. simpl. tauto.
  - rewrite lookup_insert_ne by done. intuition congruence.
Qed.

Lemma index_empty (k : string) : index ∅ k = false.
Proof. unfold index. by rewrite lookup_empty. Qed.

Lemma holds_empty : holds ∅ [].
Proof. intros k. rewrite index_empty. set_solver. Qed.

Lemma holds_insert (m : gmap string bool) (keys : list string) (k : string) :
  holds m keys → holds (<[k := true]> m) (keys ++ [k]).
Proof. intros Hm k'. rewrite index_insert, (Hm k'). set_solver. Qed.

Lemma holds_true (m : gmap string bool) (keys : list string) (k : string) :
  holds m keys → index m k = true → k ∈ keys.
Proof. intros Hm. apply Hm. Qed.

Lemma holds_false (m : gmap string bool) (keys : list string) (k : string) :
  holds m keys → index m k = false → k ∉ keys.
Proof. intros Hm Hk Hin. apply Hm in Hin. congruence. Qed.

(** ** First occurrences *)

Section first_occurrences_facts.

Context {A : Type} (key : A → string).

Implicit Types (l : list A) (earlier : list string).

Lemma first_occurrences_sublist l :
  ∀ earlier, first_occurrences_from key earlier l `sublist_of` l.
Proof.
  induction l as [|x rest IH]; intros earlier; simpl.
  - constructor.
  - case_decide.
    + apply sublist_cons, IH.
    + apply sublist_skip, IH.
Qed.

Lemma first_occurrences_fresh l :
  ∀ earlier x, x ∈ first_occurrences_from key earlier l → key x ∉ earlier.
Proof.
  induction l as [|a rest IH]; intros earlier x; simpl.
  - by intros ?%elem_of_nil.
  - case_decide as Hin.
    + apply IH.
    + intros [->|Hx]%elem_of_cons; [done|].
      apply IH in Hx. set_solver.
Qed.

Lemma first_occurrences_NoDup l :
  ∀ earlier, NoDup (key <$> first_occurrences_from key earlier l).
Proof.
  induction l as [|a rest IH]; intros earlier; simpl.
  - constructor.
  - case_decide as Hin; [apply IH|].
    rewrite fmap_cons. constructor; [|apply IH].
    intros (x & Heq & Hx)%list_elem_of_fmap.
    apply first_occurrences_fresh in Hx. set_solver.
Qed.

Lemma first_occurrences_elem l :
  ∀ earlier x,
    x ∈ first_occurrences_from key earlier l ↔
    (key x ∉ earlier) ∧ (∃ i, first_at key l i x).
Proof.
  unfold first_at.
  induction l as [|a rest IH]; intros earlier x; simpl.
  - split; [by intros ?%elem_of_nil|].
    intros (_ & i & Hi & _). by rewrite lookup_nil in Hi.
  - case_decide as Hin.
    + rewrite IH. split.
      * intros (Hfresh & i & Hi & Hbefore). split; [done|].
        exists (S i). split; [done|].
        intros [|j] y Hj Hl; simpl in Hl.
        -- injection Hl as <-. congruence.
        -- eapply Hbefore; [|done]. lia.
      * intros (Hfresh & [|i] & Hi & Hbefore); simpl in Hi.
        -- injection Hi as <-. done.
        -- split; [done|]. exists i. split; [done|].
           intros j y Hj Hl. apply (Hbefore (S j) y); [lia|done].
    + rewrite elem_of_cons, IH. split.
      * intros [->|(Hfresh & i & Hi & Hbefore)].
        -- split; [done|]. exists 0%nat. split; [done|]. intros; lia.
        -- split; [set_solver|]. exists (S i). split; [done|].
           intros [|j] y Hj Hl; simpl in Hl.
           ++ injection Hl as <-. set_solver.
           ++ eapply Hbefore; [|done]. lia.
      * intros (Hfresh & [|i] & Hi & Hbefore); simpl in Hi.
        -- injection Hi as <-. by left.
        -- right. split.
           ++ assert (key a ≠ key x) by (apply (Hbefore 0%nat a); [lia|done]).
              set_solver.
           ++ exists i. split; [done|].
              intros j y Hj Hl. apply (Hbefore (S j) y); [lia|done].
Qed.

Lemma first_occurrences_fixed l :
  ∀ earlier,
    NoDup (key <$> l) → (∀ x, x ∈ l → key x ∉ earlier) →
    first_occurrences_from key earlier l = l.
Proof.
  induction l as [|a rest IH]; intros earlier Hnd Hfresh; simpl; [done|].
  rewrite fmap_cons in Hnd. apply NoDup_cons in Hnd as [Ha Hnd].
  rewrite decide_False by (apply Hfresh; set_solver).
  f_equal. apply IH; [done|].
  intros x Hx. specialize (Hfresh x).
  assert (key x ≠ key a).
  { intros Heq. apply Ha. rewrite <- Heq. by apply list_elem_of_fmap_2. }
  set_solver.
Qed.

(** Only the set of earlier keys matters. *)
Lemma first_occurrences_ext l :
  ∀ e1 e2, (∀ k, k ∈ e1 ↔ k ∈ e2) →
    first_occurrences_from key e1 l = first_occurrences_from key e2 l.
Proof.
  induction l as [|a rest IH]; intros e1 e2 Heq; simpl; [done|].
  destruct (decide (key a ∈ e1)) as [H1|H1].
  - rewrite decide_True by (by apply Heq). by apply IH.
  - rewrite decide_False by (by rewrite <- Heq). f_equal.
    apply IH. set_solver.
Qed.

Lemma first_occurrences_app l1 :
  ∀ l2 earlier,
    first_occurrences_from key earlier (l1 ++ l2) =
    first_occurrences_from key earlier l1 ++
    first_occurrences_from key (earlier ++ (key <$> l1)) l2.
Proof.
  induction l1 as [|a rest IH]; intros l2 earlier; simpl.
  - by rewrite app_nil_r.
  - case_decide as Hin.
    + rewrite IH. f_equal. apply first_occurrences_ext. set_solver.
    + rewrite IH. simpl. do 2 f_equal. by rewrite <- app_assoc.
Qed.

End first_occurrences_facts.

(** ** The tag registry *)

Module tag_facts.

Import tag.

Lemma Dedup_loop_spec (tags : list Tag) :
  ∀ (deduped : list Tag) (seen : gmap string bool) (earlier : list string),
    holds seen earlier →
    Dedup_loop tags deduped seen = deduped ++ first_occurrences_from ID earlier tags.
Proof.
  induction tags as [|t rest IH]; intros deduped seen earlier Hseen; simpl.
  - by rewrite app_nil_r.
  - destruct (index seen (ID t)) eqn:Hidx.
    + rewrite decide_True by (by eapply holds_true). by apply IH.
    + rewrite decide_False by (by eapply holds_false).
      rewrite (IH _ _ (earlier ++ [ID t])) by (by apply holds_insert).
      by rewrite <- app_assoc.
Qed.

Lemma Dedup_first_occurrences (tags : list Tag) :
  Dedup tags = first_occurrences ID tags.
Proof. apply (Dedup_loop_spec tags [] ∅ []), holds_empty. Qed.

(** C3. [Dedup] returns the subsequence of its input that retains exactly
    the first occurrence of each distinct identity, in the original
    order: it is the sequence of first occurrences, a subsequence of the
    input in which no identity repeats, an element belongs to it exactly
    when the input holds it at a position before which its identity does
    not occur, and it is no longer than the input. On
    [Approved, Closed, Approved] it returns [Approved, Closed]. *)
Theorem Dedup_retains_first_occurrences (tags : list Tag) :
  Dedup tags = first_occurrences ID tags ∧
  Dedup tags `sublist_of` tags ∧
  NoDup (ID <$> Dedup tags) ∧
  (∀ t, t ∈ Dedup tags ↔ ∃ i, first_at ID tags i t) ∧
  (length (Dedup tags) ≤ length tags)%nat ∧
  Dedup [Approved; Closed; Approved] = [Approved; Closed].
Proof.
  rewrite Dedup_first_occurrences. unfold first_occurrences.
  split_and!.
  - done.
  - apply first_occurrences_sublist.
  - apply first_occurrences_NoDup.
  - intros t. rewrite first_occurrences_elem. set_solver.
  - apply sublist_length, first_occurrences_sublist.
  - reflexivity.
Qed.

(** C4. [Dedup] is idempotent: [Dedup (Dedup x) = Dedup x] for every
    sequence of tags [x]. *)
Theorem Dedup_idempotent (x : list Tag) : Dedup (Dedup x) = Dedup x.
Proof.
  rewrite !Dedup_first_occurrences. unfold first_occurrences.
  apply first_occurrences_fixed.
  - apply first_occurrences_NoDup.
  - intros t _. set_solver.
Qed.

(** C2 as stated fails: the tag [None] is declared with the others and
    [Tags] does not list it. *)
Lemma Tags_omits_None : ¬ (∀ t, t ∈ declared → t ∈ Tags).
Proof.
  intros H. specialize (H None).
  assert (Hin : None ∈ declared) by (unfold declared; set_solver).
  apply H in Hin. revert Hin.
  apply (bool_decide_unpack (None ∉ Tags)). by vm_compute.
Qed.

(** C2, amended. [Tags] lists every statically declared tag except the
    special tag [None], it lists nothing else, and no two tags in it -
    indeed no two declared tags - share an identity. *)
Theorem Tags_lists_all_but_None :
  (∀ t, t ∈ declared → t = None ∨ t ∈ Tags) ∧
  (∀ t, t ∈ Tags → t ∈ declared) ∧
  NoDup (ID <$> Tags) ∧
  NoDup (ID <$> declared).
Proof.
  split_and!.
  - apply Forall_forall. apply (bool_decide_unpack _). by vm_compute.
  - apply Forall_forall. apply (bool_decide_unpack _). by vm_compute.
  - apply (bool_decide_unpack _). by vm_compute.
  - apply (bool_decide_unpack _). by vm_compute.
Qed.

End tag_facts.

(** ** The collection orchestrator *)

Module triage_facts.

Import triage.

(** *** Machine arithmetic *)

Lemma wrap64_id (z : Z) : min_int64 ≤ z ≤ max_int64 → wrap64 z = z.
Proof.
  unfold wrap64, min_int64, max_int64. intros Hz.
  rewrite Z.mod_small; lia.
Qed.

Lemma wrap64_add_l (a b : Z) : wrap64 (wrap64 a + b) = wrap64 (a + b).
Proof.
  unfold wrap64.
  replace ((a + 2 ^ 63) mod 2 ^ 64 - 2 ^ 63 + b + 2 ^ 63)
    with ((a + 2 ^ 63) mod 2 ^ 64 + b) by lia.
  rewrite Zplus_mod_idemp_l. do 2 f_equal. lia.
Qed.

Lemma wrap64_add_r (a b : Z) : wrap64 (a + wrap64 b) = wrap64 (a + b).
Proof. rewrite (Z.add_comm a), wrap64_add_l. f_equal. lia. Qed.

(** *** Aggregation *)

Section Aggregation.

Context {Conversation : Type}.
Variable hubbub_PullRequest : string.
Variable unrepresentable : float → Z.

Abbreviation RuleResult := (RuleResult Conversation).
Abbreviation CollectionResult := (CollectionResult Conversation).
Abbreviation step := (Summarize_step hubbub_PullRequest).
Abbreviation is_pr := (is_pull_request hubbub_PullRequest).
Abbreviation Summarize := (SummarizeCollectionResult hubbub_PullRequest unrepresentable).

Lemma len_nonneg {A} (l : list A) : 0 ≤ len l.
Proof. unfold len. lia. Qed.

Lemma item_count_if_app f (os1 os2 : list RuleResult) :
  item_count_if f (os1 ++ os2) = item_count_if f os1 + item_count_if f os2.
Proof. induction os1 as [|oc os1 IH]; simpl; [done|]. rewrite IH. lia. Qed.

Lemma item_count_if_nonneg f (os : list RuleResult) : 0 ≤ item_count_if f os.
Proof.
  induction os as [|oc os IH]; simpl; [done|].
  pose proof (len_nonneg (RuleResult_Items oc)). destruct (f oc); lia.
Qed.

Lemma item_count_split (os : list RuleResult) :
  item_count os =
  item_count_if is_pr os + item_count_if (λ oc, negb (is_pr oc)) os.
Proof.
  unfold item_count. induction os as [|oc os IH]; simpl; [done|].
  rewrite IH. destruct (is_pr oc); simpl; lia.
Qed.

Lemma Summarize_loop_fold (os : list RuleResult) :
  ∀ r, (Summarize_loop hubbub_PullRequest os r).1 = foldl step r os.
Proof.
  induction os as [|oc os IH]; intros r; simpl; [done|].
  specialize (IH (step r oc)).
  destruct (Summarize_loop hubbub_PullRequest os (step r oc)). done.
Qed.

(** What the loop of [SummarizeCollectionResult] has established when it
    ends. *)
Lemma foldl_step_folded (os : list RuleResult) :
  let r := foldl step zero_CollectionResult os in
  Total r = wrap64 (item_count os) ∧
  TotalPullRequests r = wrap64 (item_count_if is_pr os) ∧
  TotalIssues r = wrap64 (item_count_if (λ oc, negb (is_pr oc)) os) ∧
  RuleResults r = os ∧
  AvgAge r = 0 ∧ AvgCurrentHold r = 0 ∧ AvgAccumulatedHold r = 0.
Proof.
  induction os as [|oc os IH] using rev_ind.
  - by split_and!.
  - rewrite foldl_app. cbv zeta in *.
    destruct IH as (HT & HP & HI & HR & HA & HC & HH).
    simpl; unfold item_count in *; rewrite ?item_count_if_app; simpl.
    split_and!.
    + unfold int_add. rewrite HT, wrap64_add_l. f_equal. lia.
    + destruct (is_pr oc); simpl.
      * unfold int_add. rewrite HP, wrap64_add_l. f_equal. lia.
      * rewrite HP. f_equal. lia.
    + destruct (is_pr oc); simpl.
      * rewrite HI. f_equal. lia.
      * unfold int_add. rewrite HI, wrap64_add_l. f_equal. lia.
    + by rewrite HR.
    + done.
    + done.
    + done.
Qed.

Lemma Summarize_cases (os : list RuleResult) :
  let r0 := foldl step zero_CollectionResult os in
  (Total r0 = 0 ∧ (Summarize os).1 = r0) ∨
  (Total r0 ≠ 0 ∧ (Summarize os).1 = set_averages unrepresentable r0).
Proof.
  intros r0. unfold SummarizeCollectionResult.
  pose proof (Summarize_loop_fold os zero_CollectionResult) as Hfold.
  destruct (Summarize_loop hubbub_PullRequest os zero_CollectionResult) as [r log].
  simpl in Hfold. subst r. fold r0.
  destruct (Z.eqb_spec (Total r0) 0) as [H0|H0]; [left|right]; done.
Qed.

Lemma Summarize_folded_counts (os : list RuleResult) :
  let r := (Summarize os).1 in
  Total r = wrap64 (item_count os) ∧
  TotalPullRequests r = wrap64 (item_count_if is_pr os) ∧
  TotalIssues r = wrap64 (item_count_if (λ oc, negb (is_pr oc)) os) ∧
  RuleResults r = os.
Proof.
  intros r. subst r.
  destruct (foldl_step_folded os) as (HT & HP & HI & HR & _).
  destruct (Summarize_cases os) as [[_ ->]|[_ ->]]; done.
Qed.

(** C10. The result of [SummarizeCollectionResult] satisfies
    [Total == TotalPullRequests + TotalIssues] in Go's [int] arithmetic:
    every item is counted in exactly one of the two buckets, the items of
    the pull-request rules in [TotalPullRequests] and those of every
    other rule in [TotalIssues]; unless the items number more than an
    [int] holds, the equation is one of integers. *)
Theorem Total_is_pull_requests_plus_issues (os : list RuleResult) :
  let r := (Summarize os).1 in
  Total r = int_add (TotalPullRequests r) (TotalIssues r) ∧
  TotalPullRequests r = wrap64 (item_count_if is_pr os) ∧
  TotalIssues r = wrap64 (item_count_if (λ oc, negb (is_pr oc)) os) ∧
  item_count os = item_count_if is_pr os + item_count_if (λ oc, negb (is_pr oc)) os ∧
  (item_count os ≤ max_int64 → Total r = TotalPullRequests r + TotalIssues r).
Proof.
  intros r. destruct (Summarize_folded_counts os) as (HT & HP & HI & _).
  fold r in HT, HP, HI. pose proof (item_count_split os) as Hsplit.
  split_and!; try done.
  - rewrite HT, HP, HI. unfold int_add.
    rewrite wrap64_add_l, wrap64_add_r. by rewrite Hsplit.
  - intros Hmax. rewrite HT, HP, HI.
    pose proof (item_count_if_nonneg is_pr os).
    pose proof (item_count_if_nonneg (λ oc, negb (is_pr oc)) os).
    assert (0 ≤ min_int64 + 2^63) by (unfold min_int64; lia).
    rewrite !wrap64_id; unfold min_int64 in *; lia.
Qed.

(** C7. When the rule results hold no item at all,
    [SummarizeCollectionResult] returns a result (it has no error result)
    with [Total == 0] and the three averages at the zero duration.
    No average is computed while [Total] is zero, so nothing is divided by
    a zero count: the averages are computed exactly when [Total] is not
    zero, and [Total] is not negative unless the items number more than an
    [int] holds. *)
Theorem no_items_no_averages (os : list RuleResult) :
  let r := (Summarize os).1 in
  (item_count os = 0 →
     Total r = 0 ∧ AvgAge r = 0 ∧ AvgCurrentHold r = 0 ∧ AvgAccumulatedHold r = 0) ∧
  (Total r = 0 → AvgAge r = 0 ∧ AvgCurrentHold r = 0 ∧ AvgAccumulatedHold r = 0) ∧
  (Total r ≠ 0 →
     AvgAge r = avgDayDuration unrepresentable (TotalAgeDays r) (Total r) ∧
     AvgCurrentHold r = avgDayDuration unrepresentable (TotalCurrentHoldDays r) (Total r) ∧
     AvgAccumulatedHold r =
       avgDayDuration unrepresentable (TotalAccumulatedHoldDays r) (Total r)) ∧
  (item_count os ≤ max_int64 → 0 ≤ Total r).
Proof.
  intros r.
  destruct (foldl_step_folded os) as (HT & HP & HI & HR & HA & HC & HH).
  assert (Hzero : Total r = 0 →
            AvgAge r = 0 ∧ AvgCurrentHold r = 0 ∧ AvgAccumulatedHold r = 0).
  { subst r. destruct (Summarize_cases os) as [[H0 ->]|[H0 ->]]; [done|].
    simpl. intros. done. }
  split_and!.
  - intros Hnone.
    assert (Total r = 0) as H0.
    { destruct (Summarize_folded_counts os) as (HT' & _).
      unfold r. by rewrite HT', Hnone. }
    split; [done|]. by apply Hzero.
  - done.
  - subst r. destruct (Summarize_cases os) as [[H0 ->]|[H0 ->]]; [done|].
    intros _. done.
  - intros Hmax. destruct (Summarize_folded_counts os) as (HT' & _).
    unfold r. rewrite HT'.
    pose proof (item_count_if_nonneg (λ _, true) os). fold (item_count os) in *.
    rewrite wrap64_id; unfold min_int64; lia.
Qed.

(** Whole hours. *)

Lemma SFfloor_nonneg_trunc (x : spec_float) (f : Z) :
  SFfloor x = Some f → 0 ≤ f → SFtrunc x = Some f.
Proof.
  destruct x as [s|s| |s m e]; simpl; try done.
  intros [= <-] Hf. f_equal.
  destruct (Z.leb_spec 0 e) as [He|He]; [done|].
  assert (0 < 2 ^ (- e)) by (apply Z.pow_pos_nonneg; lia).
  destruct s.
  - exfalso. assert (Z.neg m / 2 ^ (- e) < 0); [|lia].
    apply Z.div_lt_upper_bound; lia.
  - apply Z.quot_div_nonneg; lia.
Qed.

(** [SFfloor] is the floor of the value [± m * 2 ^ e]. *)
Lemma SFfloor_finite (s : bool) (m : positive) (e : Z) (f : Z) :
  SFfloor (S754_finite s m e) = Some f →
  let sm := if s then Z.neg m else Z.pos m in
  (0 ≤ e → f = sm * 2 ^ e) ∧
  (e < 0 → f * 2 ^ (- e) ≤ sm < (f + 1) * 2 ^ (- e)).
Proof.
  simpl. intros [= <-]. split.
  - intros He. by rewrite (proj2 (Z.leb_le 0 e) He).
  - intros He. rewrite (proj2 (Z.leb_gt 0 e) He).
    assert (0 < 2 ^ (- e)) by (apply Z.pow_pos_nonneg; lia).
    set (sm := if s then Z.neg m else Z.pos m).
    pose proof (Z.mul_div_le sm (2 ^ (- e))).
    pose proof (Z.mul_succ_div_gt sm (2 ^ (- e))). lia.
Qed.

Lemma avgDayDuration_floor (total : float) (count f : Z) :
  float64_floor (fractional_hours total count) = Some f →
  0 ≤ f ≤ 2562047 →
  avgDayDuration unrepresentable total count = f * Hour.
Proof.
  intros Hfloor Hf. apply SFfloor_nonneg_trunc in Hfloor; [|lia].
  unfold avgDayDuration, int64_of_float64.
  change (PrimFloat.mul (PrimFloat.div total (float64_of_int count)) 24)
    with (fractional_hours total count).
  unfold float64_trunc. rewrite Hfloor.
  assert (Hrange : (min_int64 <=? f) && (f <=? max_int64) = true).
  { apply andb_true_intro. unfold min_int64, max_int64. split; apply Z.leb_le; lia. }
  rewrite Hrange. unfold int64_mul. apply wrap64_id.
  unfold min_int64, max_int64, Hour, Minute, Second, Millisecond, Microsecond,
    Nanosecond. lia.
Qed.

Lemma Summarize_averages (os : list RuleResult) :
  let r := (Summarize os).1 in
  Total r ≠ 0 →
  AvgAge r = avgDayDuration unrepresentable (TotalAgeDays r) (Total r) ∧
  AvgCurrentHold r = avgDayDuration unrepresentable (TotalCurrentHoldDays r) (Total r) ∧
  AvgAccumulatedHold r =
    avgDayDuration unrepresentable (TotalAccumulatedHoldDays r) (Total r).
Proof.
  intros r. subst r. destruct (Summarize_cases os) as [[H0 ->]|[H0 ->]]; done.
Qed.

(** C8, amended. Whenever [Total] is not zero, each average is the floor
    of its fractional-hours value [total_days / Total * 24], computed in
    [float64], taken as whole hours - provided that floor lies between 0
    and 2562047 hours, the most an [int64] of nanoseconds holds. Rule
    results of 10 and 5 days over 3 items average exactly 120 hours. *)
Theorem averages_are_floored_hours :
  (∀ (os : list RuleResult) (f : Z),
     let r := (Summarize os).1 in
     Total r ≠ 0 → 0 ≤ f ≤ 2562047 →
     (float64_floor (fractional_hours (TotalAgeDays r) (Total r)) = Some f →
        AvgAge r = f * Hour) ∧
     (float64_floor (fractional_hours (TotalCurrentHoldDays r) (Total r)) = Some f →
        AvgCurrentHold r = f * Hour) ∧
     (float64_floor (fractional_hours (TotalAccumulatedHoldDays r) (Total r)) = Some f →
        AvgAccumulatedHold r = f * Hour)) ∧
  (∀ r1 r2 : RuleResult,
     RuleResult_TotalAgeDays r1 = 10%float →
     RuleResult_TotalAgeDays r2 = 5%float →
     item_count [r1; r2] = 3 →
     AvgAge (Summarize [r1; r2]).1 = 120 * Hour).
Proof.
  split.
  - intros os f r Hnz Hf. subst r.
    destruct (Summarize_averages os Hnz) as (-> & -> & ->).
    split_and!; intros Hfloor; by apply avgDayDuration_floor.
  - intros r1 r2 H1 H2 Hcount.
    destruct (Summarize_folded_counts [r1; r2]) as (HT & _).
    rewrite Hcount in HT. change (wrap64 3) with 3 in HT.
    assert (Hnz : Total (Summarize [r1; r2]).1 ≠ 0) by (rewrite HT; lia).
    destruct (Summarize_averages [r1; r2] Hnz) as (-> & _).
    rewrite HT.
    assert (TotalAgeDays (Summarize [r1; r2]).1 = 15%float) as ->.
    { destruct (Summarize_cases [r1; r2]) as [[_ ->]|[_ ->]];
        simpl; rewrite H1, H2; reflexivity. }
    apply avgDayDuration_floor; [by vm_compute|lia].
Qed.

End Aggregation.

(** C8 as stated fails. One rule result with a single item a million days
    old: the fractional-hours value is 24000000, and so is its floor, but
    that many hours exceed what a [time.Duration] holds and the product
    with [time.Hour] wraps around to a negative duration. *)
Lemma ancient_average_wraps :
  let r := scenario.summarize scenario.ancient in
  0 < Total r ∧
  float64_floor (fractional_hours (TotalAgeDays r) (Total r)) = Some 24000000 ∧
  AvgAge r = -5833720368547758080 ∧
  AvgAge r ≠ 24000000 * Hour.
Proof. vm_compute. split_and!; done. Qed.

(** The floored average at work on the two rule results of ten and five
    days. *)
Lemma averages_are_floored_hours_witness :
  let r := scenario.summarize scenario.ten_and_five in
  Total r ≠ 0 ∧ 0 ≤ 120 ≤ 2562047 ∧
  float64_floor (fractional_hours (TotalAgeDays r) (Total r)) = Some 120 ∧
  AvgAge r = 120 * Hour.
Proof.
  pose proof (averages_are_floored_hours (Conversation := unit)
                scenario.PullRequest scenario.amd64) as [Hall _].
  assert (Hnz : Total (scenario.summarize scenario.ten_and_five) ≠ 0)
    by (vm_compute; discriminate).
  assert (Hf : 0 ≤ 120 ≤ 2562047) by lia.
  refine (conj Hnz (conj Hf (conj eq_refl _))).
  destruct (Hall scenario.ten_and_five 120 Hnz Hf) as [Hage _].
  exact (Hage eq_refl).
Defined.

(** *** Executing a collection *)

Lemma executed_app (tr1 tr2 : list event) :
  executed (tr1 ++ tr2) = executed tr1 ++ executed tr2.
Proof. apply flat_map_app. Qed.

Lemma logged_app (sev : severity) (tr1 tr2 : list event) :
  logged sev (tr1 ++ tr2) = logged sev tr1 ++ logged sev tr2.
Proof. apply flat_map_app. Qed.

Lemma flushes_app (tr1 tr2 : list event) :
  flushes (tr1 ++ tr2) = flushes tr1 ++ flushes tr2.
Proof. apply flat_map_app. Qed.

Lemma executed_Klog sev f a (tr : list event) :
  executed (Klog sev f a :: tr) = executed tr.
Proof. done. Qed.

Lemma executed_EvExecuteRule tid t err (tr : list event) :
  executed (EvExecuteRule tid t err :: tr) = tid :: executed tr.
Proof. done. Qed.

Lemma logged_ERROR_Klog f a (tr : list event) :
  logged ERROR (Klog ERROR f a :: tr) = (f, a) :: logged ERROR tr.
Proof. done. Qed.

Lemma logged_EvExecuteRule sev tid t err (tr : list event) :
  logged sev (EvExecuteRule tid t err :: tr) = logged sev tr.
Proof. done. Qed.

Lemma filter_eq_absent (tid : string) (l : list string) :
  tid ∉ l → filter (λ x, x = tid) l = [].
Proof.
  induction l as [|x l IH]; [done|]. intros Hnot.
  rewrite filter_cons_False by set_solver. apply IH. set_solver.
Qed.

Lemma evaluations_NoDup (tid : string) (tr : list event) :
  NoDup (executed tr) → (evaluations tid tr ≤ 1)%nat.
Proof.
  unfold evaluations. generalize (executed tr). intros l.
  induction 1 as [|x l Hx Hnd IH]; [simpl; lia|].
  destruct (decide (x = tid)) as [->|Hne].
  - rewrite filter_cons_True by done. rewrite filter_eq_absent by done. simpl. lia.
  - by rewrite filter_cons_False.
Qed.

Lemma evaluations_first (tid : string) (l : list string) (tr : list event) :
  executed tr = tid :: l → NoDup (executed tr) → evaluations tid tr = 1%nat.
Proof.
  unfold evaluations. intros -> [Hnot _]%NoDup_cons.
  rewrite filter_cons_True by done. by rewrite filter_eq_absent.
Qed.

Section Execution.

Context {Conversation Context World : Type}.
Variable hubbub_PullRequest : string.
Variable unrepresentable : float → Z.
Variable time_Now : World → Z * World.
Variable p : Party Conversation Context World.
Variable ctx : Context.

Abbreviation loop := (ExecuteCollection_loop p ctx).
Abbreviation Execute :=
  (ExecuteCollection hubbub_PullRequest unrepresentable time_Now p ctx).
Abbreviation Summarize' :=
  (SummarizeCollectionResult (Conversation := Conversation)
     hubbub_PullRequest unrepresentable).

Lemma returned_triple {A} (a : A) (w : World) (tr : list event) :
  returned (a, w, tr) = a.
Proof. done. Qed.

Lemma world_after_triple {A} (a : A) (w : World) (tr : list event) :
  world_after (a, w, tr) = w.
Proof. done. Qed.

Lemma trace_triple {A} (a : A) (w : World) (tr : list event) :
  trace (a, w, tr) = tr.
Proof. done. Qed.

Implicit Types (s : Collection) (tids earlier : list string) (w : World)
  (os : list (RuleResult Conversation)) (seen : gmap string Rule)
  (seenRule : gmap string bool).

(** The four ways an iteration of the loop goes. *)

Lemma loop_duplicate s tid tids os seen seenRule w :
  index seenRule tid = true →
  loop s (tid :: tids) os seen seenRule w =
  let out := loop s tids os seen seenRule w in
  (returned out, world_after out,
   Klog ERROR "collection %q has a duplicate rule: %q - ignoring"
     [VString (ID s); VString tid] :: trace out).
Proof.
  intros Hidx. simpl. rewrite Hidx. unfold bind, klog.
  by destruct (loop s tids os seen seenRule w) as [[res w'] tr].
Qed.

Lemma loop_unknown s tid tids os seen seenRule w err :
  index seenRule tid = false → LookupRule p tid = inr err →
  loop s (tid :: tids) os seen seenRule w = (inr err, w, []).
Proof. intros Hidx Hl. simpl. by rewrite Hidx, Hl. Qed.

Lemma loop_failed s tid tids os seen seenRule w t err seen' w1 :
  index seenRule tid = false → LookupRule p tid = inl t →
  ExecuteRule p ctx t seen w = (inr err, seen', w1) →
  loop s (tid :: tids) os seen seenRule w =
  (inr (Errorf "rule %q: %v" [VString (Rule_Name t); VError err]), w1,
   [EvExecuteRule tid t (Some err)]).
Proof.
  intros Hidx Hl He. simpl. rewrite Hidx, Hl.
  unfold bind, call_ExecuteRule, ret. by rewrite He.
Qed.

Lemma loop_evaluated s tid tids os seen seenRule w t ro seen' w1 :
  index seenRule tid = false → LookupRule p tid = inl t →
  ExecuteRule p ctx t seen w = (inl ro, seen', w1) →
  loop s (tid :: tids) os seen seenRule w =
  let out := loop s tids (os ++ [ro]) seen' (<[tid := true]> seenRule) w1 in
  (returned out, world_after out, EvExecuteRule tid t None :: trace out).
Proof.
  intros Hidx Hl He. simpl. rewrite Hidx, Hl.
  unfold bind, call_ExecuteRule. rewrite He. simpl.
  by destruct (loop s tids (os ++ [ro]) seen' (<[tid:=true]> seenRule) w1)
    as [[res w'] tr].
Qed.

(** Case analysis on the iteration for [tid], rewriting the loop by the
    matching equation. *)
Ltac loop_step s tid tids os seen seenRule w :=
  let Hidx := fresh "Hidx" in
  let Hl := fresh "Hlookup" in
  let He := fresh "Hexec" in
  destruct (index seenRule tid) eqn:Hidx;
  [ rewrite (loop_duplicate s tid tids os seen seenRule w Hidx)
  | let t := fresh "t" in
    let err := fresh "err" in
    destruct (LookupRule p tid) as [t|err] eqn:Hl;
    [ let ro := fresh "ro" in
      let seen' := fresh "seen'" in
      let w1 := fresh "w1" in
      destruct (ExecuteRule p ctx t seen w) as [[[ro|err] seen'] w1] eqn:He;
      [ rewrite (loop_evaluated s tid tids os seen seenRule w t ro seen' w1 Hidx Hl He)
      | rewrite (loop_failed s tid tids os seen seenRule w t err seen' w1 Hidx Hl He) ]
    | rewrite (loop_unknown s tid tids os seen seenRule w err Hidx Hl) ] ];
  cbv zeta; rewrite ?returned_triple, ?world_after_triple, ?trace_triple;
  rewrite ?executed_Klog, ?executed_EvExecuteRule, ?logged_ERROR_Klog,
    ?logged_EvExecuteRule.

(** The calls of a run follow the first occurrences of the identifiers,
    and stop short only when the run is cut short. *)
Lemma loop_executed s tids :
  ∀ os seen seenRule earlier w,
    holds seenRule earlier →
    let out := loop s tids os seen seenRule w in
    executed (trace out) `prefix_of` first_occurrences_from id earlier tids ∧
    (∀ os', returned out = inl os' →
       executed (trace out) = first_occurrences_from id earlier tids ∧
       logged ERROR (trace out) =
         duplicate_line s <$> repeated_occurrences_from id earlier tids ∧
       length os' = (length os + length (executed (trace out)))%nat).
Proof.
  induction tids as [|tid tids IH]; intros os seen seenRule earlier w Hholds.
  - simpl. split; [done|]. intros os' [= <-]. split_and!; [done|done|lia].
  - cbv zeta. simpl first_occurrences_from. simpl repeated_occurrences_from.
    unfold id at 1 3.
    loop_step s tid tids os seen seenRule w.
    + rewrite !decide_True by (by eapply holds_true).
      destruct (IH os seen seenRule earlier w Hholds) as [Hpre Hok].
      split; [done|]. intros os' Hos'.
      destruct (Hok os' Hos') as (-> & -> & ->). done.
    + rewrite !decide_False by (by eapply holds_false).
      destruct (IH (os ++ [ro]) seen' (<[tid:=true]> seenRule) (earlier ++ [tid]) w1
                  (holds_insert _ _ _ Hholds)) as [Hpre Hok].
      split; [by apply prefix_cons|]. intros os' Hos'.
      destruct (Hok os' Hos') as (-> & -> & ->).
      rewrite length_app. simpl. split_and!; [done|done|lia].
    + rewrite !decide_False by (by eapply holds_false).
      split; [|done]. apply prefix_cons, prefix_nil.
    + split; [apply prefix_nil|done].
Qed.

(** An identifier that is new and resolves is evaluated. *)
Lemma loop_first_evaluated s tid tids os seen seenRule w t :
  index seenRule tid = false → LookupRule p tid = inl t →
  ∃ l, executed (trace (loop s (tid :: tids) os seen seenRule w)) = tid :: l.
Proof.
  intros Hidx Hl.
  destruct (ExecuteRule p ctx t seen w) as [[[ro|err] seen'] w1] eqn:He.
  - rewrite (loop_evaluated _ _ _ _ _ _ _ _ _ _ _ Hidx Hl He). cbv zeta.
    rewrite trace_triple, executed_EvExecuteRule. by eexists.
  - rewrite (loop_failed _ _ _ _ _ _ _ _ _ _ _ Hidx Hl He).
    rewrite trace_triple, executed_EvExecuteRule. by eexists.
Qed.

(** A failed evaluation is the end of the run, and its error, wrapped
    with the name of the rule, is what the loop returns. *)
Lemma loop_evaluation_error s tids :
  ∀ os seen seenRule w tid' t' err',
    let out := loop s tids os seen seenRule w in
    EvExecuteRule tid' t' (Some err') ∈ trace out →
    returned out =
      inr (Errorf "rule %q: %v" [VString (Rule_Name t'); VError err']).
Proof.
  induction tids as [|tid tids IH]; intros os seen seenRule w tid' t' err'.
  - simpl. by intros ?%elem_of_nil.
  - cbv zeta. loop_step s tid tids os seen seenRule w.
    + intros [[=]|Hin]%elem_of_cons. by apply IH in Hin.
    + intros [[=]|Hin]%elem_of_cons. by apply IH in Hin.
    + intros [[= -> -> ->]|[]%elem_of_nil]%elem_of_cons. done.
    + by intros ?%elem_of_nil.
Qed.

(** Where the error of a run that is cut short comes from. *)
Lemma loop_error_origin s tids :
  ∀ os seen seenRule w e,
    let out := loop s tids os seen seenRule w in
    returned out = inr e →
    (∃ tid, tid ∈ tids ∧ LookupRule p tid = inr e) ∨
    (∃ tid t err,
       EvExecuteRule tid t (Some err) ∈ trace out ∧
       e = Errorf "rule %q: %v" [VString (Rule_Name t); VError err]).
Proof.
  induction tids as [|tid tids IH]; intros os seen seenRule w e.
  - simpl. done.
  - cbv zeta. loop_step s tid tids os seen seenRule w.
    + intros [(tid' & Hin & Hl)|(tid' & t' & err' & Hin & ->)]%IH.
      * left. exists tid'. set_solver.
      * right. exists tid', t', err'. set_solver.
    + intros [(tid' & Hin & Hl)|(tid' & t' & err' & Hin & ->)]%IH.
      * left. exists tid'. set_solver.
      * right. exists tid', t', err'. set_solver.
    + intros [= <-]. right. exists tid, t, err. set_solver.
    + intros [= <-]. left. exists tid. set_solver.
Qed.

(** An identifier that does not resolve cuts the run short, if nothing
    else has before. *)
Lemma loop_unresolved s tids :
  ∀ os seen seenRule w tid' e0,
    tid' ∈ tids → index seenRule tid' = false → LookupRule p tid' = inr e0 →
    ∃ e, returned (loop s tids os seen seenRule w) = inr e.
Proof.
  induction tids as [|tid tids IH]; intros os seen seenRule w tid' e0 Hin Hidx' Hl'.
  - by apply elem_of_nil in Hin.
  - apply elem_of_cons in Hin.
    loop_step s tid tids os seen seenRule w.
    + destruct Hin as [->|Hin]; [congruence|]. by eapply IH.
    + destruct Hin as [->|Hin]; [congruence|].
      eapply IH; [done| |done].
      destruct (index (<[tid:=true]> seenRule) tid') eqn:Hi; [|done].
      apply index_insert in Hi as [->|Hi]; congruence.
    + by eexists.
    + by eexists.
Qed.

(** The identity of the collection reaches the log and nothing else. *)
Lemma loop_collection_independent s s' tids :
  ∀ os seen seenRule w,
    returned (loop s tids os seen seenRule w) =
      returned (loop s' tids os seen seenRule w) ∧
    world_after (loop s tids os seen seenRule w) =
      world_after (loop s' tids os seen seenRule w) ∧
    executed (trace (loop s tids os seen seenRule w)) =
      executed (trace (loop s' tids os seen seenRule w)).
Proof.
  induction tids as [|tid tids IH]; intros os seen seenRule w; [done|].
  destruct (index seenRule tid) eqn:Hidx.
  - rewrite !loop_duplicate by done. cbv zeta.
    rewrite !returned_triple, !world_after_triple, !trace_triple, !executed_Klog.
    apply IH.
  - destruct (LookupRule p tid) as [t|err] eqn:Hl.
    + destruct (ExecuteRule p ctx t seen w) as [[[ro|err] seen'] w1] eqn:He.
      * rewrite !(loop_evaluated _ _ _ _ _ _ _ _ _ _ _ Hidx Hl He).
        cbv zeta. rewrite !returned_triple, !world_after_triple, !trace_triple.
        rewrite !executed_EvExecuteRule.
        destruct (IH (os ++ [ro]) seen' (<[tid:=true]> seenRule) w1)
          as (Hr & Hw & Ht).
        by rewrite Hr, Hw, Ht.
      * by rewrite !(loop_failed _ _ _ _ _ _ _ _ _ _ _ Hidx Hl He).
    + by rewrite !(loop_unknown _ _ _ _ _ _ _ _ Hidx Hl).
Qed.

(** Repeated identifiers change nothing but the log. *)
Lemma loop_skips_duplicates s tids :
  ∀ os seen seenRule earlier w,
    holds seenRule earlier →
    let out := loop s tids os seen seenRule w in
    let out' := loop s (first_occurrences_from id earlier tids) os seen seenRule w in
    returned out = returned out' ∧ world_after out = world_after out'.
Proof.
  induction tids as [|tid tids IH]; intros os seen seenRule earlier w Hholds;
    [done|].
  cbv zeta. simpl first_occurrences_from. unfold id at 1 3.
  destruct (index seenRule tid) eqn:Hidx.
  - rewrite decide_True by (by eapply holds_true).
    rewrite loop_duplicate by done. cbv zeta.
    rewrite returned_triple, world_after_triple. by apply IH.
  - rewrite decide_False by (by eapply holds_false).
    destruct (LookupRule p tid) as [t|err] eqn:Hl.
    + destruct (ExecuteRule p ctx t seen w) as [[[ro|err] seen'] w1] eqn:He.
      * rewrite !(loop_evaluated _ _ _ _ _ _ _ _ _ _ _ Hidx Hl He).
        cbv zeta. rewrite !returned_triple, !world_after_triple.
        apply (IH (os ++ [ro]) seen' (<[tid:=true]> seenRule) (earlier ++ [tid]) w1).
        by apply holds_insert.
      * by rewrite !(loop_failed _ _ _ _ _ _ _ _ _ _ _ Hidx Hl He).
    + by rewrite !(loop_unknown _ _ _ _ _ _ _ _ Hidx Hl).
Qed.

Lemma Summarize_log_quiet (os : list (RuleResult Conversation)) :
  executed (Summarize' os).2 = [] ∧
  logged ERROR (Summarize' os).2 = [] ∧
  (∀ tid t err, EvExecuteRule tid t err ∉ (Summarize' os).2).
Proof.
  assert (Hloop : ∀ (l : list (RuleResult Conversation)) r,
    let log := (Summarize_loop hubbub_PullRequest l r).2 in
    executed log = [] ∧ logged ERROR log = [] ∧
    ∀ tid t err, EvExecuteRule tid t err ∉ log).
  { induction l as [|oc l IH]; intros r; simpl.
    - split_and!; [done|done|]. intros ???. apply not_elem_of_nil.
    - specialize (IH (Summarize_step hubbub_PullRequest r oc)).
      destruct (Summarize_loop hubbub_PullRequest l
                  (Summarize_step hubbub_PullRequest r oc)) as [r' log].
      simpl in *. destruct IH as (He & Hg & Hn).
      split_and!; [done|done|]. intros tid t err [[=]|Hin]%elem_of_cons.
      by apply Hn in Hin. }
  unfold SummarizeCollectionResult.
  specialize (Hloop os zero_CollectionResult).
  destruct (Summarize_loop hubbub_PullRequest os zero_CollectionResult) as [r log].
  simpl in Hloop. destruct Hloop as (He & Hg & Hn).
  destruct (Total r =? 0); simpl.
  - rewrite executed_app, logged_app, He, Hg. split_and!; [done|done|].
    intros tid t err [[=]|[Hin|[[=]|[]%elem_of_nil]%elem_of_cons]%elem_of_app]%elem_of_cons.
    by apply Hn in Hin.
  - split_and!; [done|done|].
    intros tid t err [[=]|Hin]%elem_of_cons. by apply Hn in Hin.
Qed.

(** [ExecuteCollection] around its loop. *)
Lemma ExecuteCollection_run s w :
  let out := loop s (RuleIDs s) [] ∅ ∅ (time_Now w).2 in
  let run := Execute s w in
  executed (trace run) = executed (trace out) ∧
  logged ERROR (trace run) = logged ERROR (trace out) ∧
  (∀ tid t err,
     EvExecuteRule tid t err ∈ trace run ↔ EvExecuteRule tid t err ∈ trace out) ∧
  match returned out with
  | inr e => returned run = (None, Some e)
  | inl os =>
      returned run =
        (Some (set_Time (time_Now (world_after out)).1 (Summarize' os).1), None)
  end.
Proof.
  cbv zeta. unfold ExecuteCollection, time_Since, bind, klog, now, lift, ret.
  destruct (time_Now w) as [start w0]. simpl.
  destruct (loop s (RuleIDs s) [] ∅ ∅ w0) as [[[os|e] w1] tr];
    unfold returned, world_after, trace; simpl.
  - destruct (Summarize_log_quiet os) as (He & Hg & Hn).
    destruct (time_Now w1) as [t w2]. simpl.
    destruct (time_Now w2) as [t' w3]. simpl.
    unfold returned, trace. simpl.
    rewrite !executed_app, !logged_app, He, Hg. simpl.
    rewrite !app_nil_r. split_and!; [done|done| |done].
    intros tid t0 err. rewrite elem_of_cons, !elem_of_app. split.
    + intros [[=]|[Hin|[Hin|Hin]]]; [done|by apply Hn in Hin|].
      apply elem_of_cons in Hin as [[=]|[]%elem_of_nil].
    + intros Hin. right. by left.
  - unfold returned, trace. simpl. rewrite !app_nil_r.
    split_and!; [done|done| |done].
    intros tid t0 err. rewrite elem_of_cons. split; [|by right].
    by intros [[=]|Hin].
Qed.

(** C6. If the evaluation of a rule fails, [ExecuteCollection] returns a
    nil [CollectionResult] together with the evaluation error wrapped
    with that rule's name: no partial result comes back on this path. *)
Theorem evaluation_error_aborts s w tid t err :
  EvExecuteRule tid t (Some err) ∈ trace (Execute s w) →
  returned (Execute s w) =
    (None, Some (Errorf "rule %q: %v" [VString (Rule_Name t); VError err])).
Proof.
  destruct (ExecuteCollection_run s w) as (_ & _ & Hin & Hret).
  rewrite Hin. intros Hfail. apply loop_evaluation_error in Hfail.
  by rewrite Hfail in Hret.
Qed.

(** C1, amended. When the rule identifiers of a collection include one
    that [LookupRule] cannot resolve, [ExecuteCollection] returns a nil
    [CollectionResult] together with an error, so no partial statistics
    are produced. The error is the one [LookupRule] returned for an
    identifier of the collection, passed on as it is (or, when the
    evaluation of an earlier rule failed, that rule's wrapped evaluation
    error); it is the same for every collection with these rule
    identifiers, whatever the collection's own identity. *)
Theorem unresolved_rule_aborts s w tid e0 :
  tid ∈ RuleIDs s → LookupRule p tid = inr e0 →
  ∃ e,
    returned (Execute s w) = (None, Some e) ∧
    ((∃ tid', tid' ∈ RuleIDs s ∧ LookupRule p tid' = inr e) ∨
     (∃ tid' t err,
        EvExecuteRule tid' t (Some err) ∈ trace (Execute s w) ∧
        e = Errorf "rule %q: %v" [VString (Rule_Name t); VError err])) ∧
    (∀ s', RuleIDs s' = RuleIDs s → returned (Execute s' w) = (None, Some e)).
Proof.
  intros Hin Hl.
  destruct (ExecuteCollection_run s w) as (_ & _ & Hev & Hret).
  destruct (loop_unresolved s (RuleIDs s) [] ∅ ∅ (time_Now w).2 tid e0 Hin
              (index_empty tid) Hl) as [e He].
  rewrite He in Hret. exists e. split_and!; [done| |].
  - apply loop_error_origin in He as [?|(tid' & t & err & Ht & ->)]; [by left|].
    right. exists tid', t, err. by rewrite Hev.
  - intros s' Hids.
    destruct (ExecuteCollection_run s' w) as (_ & _ & _ & Hret').
    rewrite Hids in Hret'.
    destruct (loop_collection_independent s' s (RuleIDs s) [] ∅ ∅ (time_Now w).2)
      as (Hsame & _).
    by rewrite Hsame, He in Hret'.
Qed.

(** C5. In every run each distinct rule identifier is evaluated at most
    once, in the order of first occurrence. An identifier already
    processed is logged as a duplicate and skipped without failing the
    collection: the run returns what the run of the collection with the
    repetitions removed returns, and when it returns a result, every
    distinct identifier has been evaluated exactly once, there is one
    rule result for each, and every repetition has been logged. For the
    rule identifiers a, a, b the rule a, once it resolves, is evaluated
    exactly once, and the run that returns a result has logged the
    duplicate and returns [RuleResults] of length 2. *)
Theorem each_rule_evaluated_once s w :
  let run := Execute s w in
  let distinct := first_occurrences id (RuleIDs s) in
  (∀ tid, (evaluations tid (trace run) ≤ 1)%nat) ∧
  NoDup (executed (trace run)) ∧
  executed (trace run) `prefix_of` distinct ∧
  returned run = returned (Execute (with_RuleIDs s distinct) w) ∧
  (∀ r, returned run = (Some r, None) →
     executed (trace run) = distinct ∧
     length (RuleResults r) = length distinct ∧
     logged ERROR (trace run) =
       duplicate_line s <$> repeated_occurrences id (RuleIDs s)) ∧
  (RuleIDs s = ["a"; "a"; "b"] →
   (∀ t, LookupRule p "a" = inl t → evaluations "a" (trace run) = 1%nat) ∧
   (∀ r, returned run = (Some r, None) →
      executed (trace run) = ["a"; "b"] ∧
      length (RuleResults r) = 2%nat ∧
      logged ERROR (trace run) = [duplicate_line s "a"])).
Proof.
  intros run distinct. subst run.
  destruct (ExecuteCollection_run s w) as (Hexec & Hlog & _ & Hret).
  assert (Hnodup : NoDup (executed (trace (Execute s w)))).
  { rewrite Hexec.
    destruct (loop_executed s (RuleIDs s) [] ∅ ∅ [] (time_Now w).2 holds_empty)
      as [[k Hk] _].
    pose proof (first_occurrences_NoDup id (RuleIDs s) []) as Hnd.
    rewrite list_fmap_id, Hk in Hnd. by apply NoDup_app in Hnd as [? _]. }
  destruct (loop_executed s (RuleIDs s) [] ∅ ∅ [] (time_Now w).2 holds_empty)
    as [Hpre Hok].
  fold (first_occurrences id (RuleIDs s)) in Hpre, Hok. fold distinct in Hpre, Hok.
  fold (repeated_occurrences id (RuleIDs s)) in Hok.
  assert (Hsuccess : ∀ r, returned (Execute s w) = (Some r, None) →
            executed (trace (Execute s w)) = distinct ∧
            length (RuleResults r) = length distinct ∧
            logged ERROR (trace (Execute s w)) =
              duplicate_line s <$> repeated_occurrences id (RuleIDs s)).
  { intros r Hr. rewrite Hr in Hret.
    destruct (returned (loop s (RuleIDs s) [] ∅ ∅ (time_Now w).2))
      as [os|e] eqn:Hout; [|done].
    destruct (Hok os eq_refl) as (He & Hg & Hlen).
    injection Hret as ->. rewrite Hexec, Hlog, He, Hg.
    split_and!; [done| |done].
    destruct (Summarize_folded_counts hubbub_PullRequest unrepresentable os)
      as (_ & _ & _ & Hrr).
    simpl. rewrite Hrr, Hlen, He. done. }
  split_and!.
  - intros tid. by apply evaluations_NoDup.
  - done.
  - by rewrite Hexec.
  - destruct (ExecuteCollection_run (with_RuleIDs s distinct) w)
      as (_ & _ & _ & Hret').
    simpl RuleIDs in Hret'.
    destruct (loop_collection_independent (with_RuleIDs s distinct) s distinct
                [] ∅ ∅ (time_Now w).2) as (Hr1 & Hw1 & _).
    destruct (loop_skips_duplicates s (RuleIDs s) [] ∅ ∅ [] (time_Now w).2
                holds_empty) as (Hr2 & Hw2).
    fold (first_occurrences id (RuleIDs s)) in Hr2, Hw2. fold distinct in Hr2, Hw2.
    rewrite Hr1, Hw1, <- Hr2, <- Hw2 in Hret'.
    destruct (returned (loop s (RuleIDs s) [] ∅ ∅ (time_Now w).2));
      by rewrite Hret, Hret'.
  - done.
  - intros Hids. split.
    + intros t Hl.
      destruct (loop_first_evaluated s "a" ["a"; "b"] [] ∅ ∅ (time_Now w).2 t
                  (index_empty "a") Hl) as [l Hl'].
      rewrite <- Hids, <- Hexec in Hl'. by eapply evaluations_first.
    + intros r Hr. destruct (Hsuccess r Hr) as (-> & -> & ->).
      subst distinct. rewrite Hids. done.
Qed.

End Execution.

(** C6 at work: the collection with the flaky rule. *)
Lemma evaluation_error_aborts_witness :
  EvExecuteRule "flaky" scenario.rule_flaky (Some (ErrorString "rate limit exceeded"))
    ∈ trace (scenario.run scenario.with_flaky) ∧
  returned (scenario.run scenario.with_flaky) =
    (None,
     Some (Errorf "rule %q: %v"
             [VString "Flaky"; VError (ErrorString "rate limit exceeded")])).
Proof.
  assert (Hin :
    EvExecuteRule "flaky" scenario.rule_flaky (Some (ErrorString "rate limit exceeded"))
      ∈ trace (scenario.run scenario.with_flaky)).
  { apply (list_elem_of_lookup_2 _ 2%nat). reflexivity. }
  split; [exact Hin|].
  exact (evaluation_error_aborts scenario.PullRequest scenario.amd64 scenario.clock
           scenario.party tt scenario.with_flaky 0 _ _ _ Hin).
Defined.

(** C1 as stated fails. Two collections with different identities that
    name the same unknown rule get the same error back: nothing in it
    tells which collection failed. *)
Lemma error_does_not_name_collection :
  ¬ ∃ collection_of : error → string,
      ∀ s, "missing" ∈ RuleIDs s →
        ∃ e, returned (scenario.run s) = (None, Some e) ∧ collection_of e = ID s.
Proof.
  intros (collection_of & H).
  destruct (H scenario.first_broken) as (e1 & Hr1 & Hc1);
    [unfold scenario.first_broken; simpl; set_solver|].
  destruct (H scenario.second_broken) as (e2 & Hr2 & Hc2);
    [unfold scenario.second_broken; simpl; set_solver|].
  vm_compute in Hr1, Hr2. injection Hr1 as <-. injection Hr2 as <-.
  rewrite Hc1 in Hc2. discriminate Hc2.
Qed.

(** C1, amended, at work on the first of the two. *)
Lemma unresolved_rule_aborts_witness :
  "missing" ∈ RuleIDs scenario.first_broken ∧
  LookupRule scenario.party "missing" =
    inr (Errorf "rule %q is undefined" [VString "missing"]) ∧
  ∃ e, returned (scenario.run scenario.first_broken) = (None, Some e).
Proof.
  assert (Hin : "missing" ∈ RuleIDs scenario.first_broken)
    by (apply (list_elem_of_lookup_2 _ 0%nat); reflexivity).
  refine (conj Hin (conj eq_refl _)).
  destruct (unresolved_rule_aborts scenario.PullRequest scenario.amd64
              scenario.clock scenario.party tt scenario.first_broken 0
              "missing" _ Hin eq_refl) as (e & He & _).
  exists e. exact He.
Defined.

(** C5 at work on the collection of rules a, a, b. *)
Lemma each_rule_evaluated_once_witness :
  ∃ r, returned (scenario.run scenario.duplicated) = (Some r, None) ∧
    evaluations "a" (trace (scenario.run scenario.duplicated)) = 1%nat ∧
    executed (trace (scenario.run scenario.duplicated)) = ["a"; "b"] ∧
    length (RuleResults r) = 2%nat ∧
    logged ERROR (trace (scenario.run scenario.duplicated)) =
      [duplicate_line scenario.duplicated "a"].
Proof.
  destruct (each_rule_evaluated_once scenario.PullRequest scenario.amd64
              scenario.clock scenario.party tt scenario.duplicated 0)
    as (_ & _ & _ & _ & _ & Hab).
  destruct (Hab eq_refl) as [Honce Hab'].
  eexists. split; [vm_compute; reflexivity|].
  refine (conj (Honce _ eq_refl) _).
  apply Hab'. vm_compute. reflexivity.
Defined.

(** *** Flushing the search cache *)

Lemma holds_equiv (m : gmap string bool) (k1 k2 : list string) :
  holds m k1 → (∀ k, k ∈ k1 ↔ k ∈ k2) → holds m k2.
Proof. intros Hm Heq k. by rewrite (Hm k), Heq. Qed.

Lemma flushes_Klog sev f a (tr : list event) :
  flushes (Klog sev f a :: tr) = flushes tr.
Proof. done. Qed.

Lemma flushes_EvFlushSearchCache org project minAge e (tr : list event) :
  flushes (EvFlushSearchCache org project minAge e :: tr) =
  (org, project, minAge) :: flushes tr.
Proof. done. Qed.

Section Flush.

Context {Conversation Context World : Type}.
Variable parseRepo : string → (string * string) + error.
Variable p : Party Conversation Context World.
Variable minAge : Z.

Abbreviation flush_repos := (FlushSearchCache_repos parseRepo p minAge).
Abbreviation flush_rules := (FlushSearchCache_rules parseRepo p minAge).

Implicit Types (repos tids earlier refs : list string) (w : World)
  (flushed : gmap string bool).

Lemma flush_repos_skip r repos flushed w :
  index flushed r = true →
  flush_repos (r :: repos) flushed w = flush_repos repos flushed w.
Proof. intros Hidx. simpl. by rewrite Hidx. Qed.

Lemma flush_repos_unparsable r repos flushed w err :
  index flushed r = false → parseRepo r = inr err →
  flush_repos (r :: repos) flushed w =
  ((Some err, flushed), w, [Klog INFO "Flushing search cache for %s ..." [VString r]]).
Proof. intros Hidx Hp. simpl. rewrite Hidx. simpl. unfold bind, klog. by rewrite Hp. Qed.

Lemma flush_repos_request r repos flushed w org project e w1 :
  index flushed r = false → parseRepo r = inl (org, project) →
  engine_FlushSearchCache p org project minAge w = (e, w1) →
  ∃ warn,
    flushes warn = [] ∧
    flush_repos (r :: repos) flushed w =
    let out := flush_repos repos (<[r := true]> flushed) w1 in
    (returned out, world_after out,
     Klog INFO "Flushing search cache for %s ..." [VString r]
       :: EvFlushSearchCache org project minAge e :: warn ++ trace out).
Proof.
  intros Hidx Hp He.
  exists (match e with
          | Some err =>
              [Klog WARNING "flush for %s/%s: %v"
                 [VString org; VString project; VError err]]
          | None => []
          end).
  split; [by destruct e|].
  simpl. rewrite Hidx. simpl.
  unfold bind, klog, call_FlushSearchCache, ret. rewrite Hp, He.
  destruct e; simpl;
    by destruct (flush_repos repos (<[r:=true]> flushed) w1) as [[res w'] tr].
Qed.

(** The requests of the inner loop are those for the references not yet
    flushed, each once, in order; they are all there unless a reference
    failed to parse. *)
Lemma flush_repos_flushes repos :
  ∀ flushed earlier w,
    holds flushed earlier →
    let out := flush_repos repos flushed w in
    ∃ refs,
      refs `prefix_of` first_occurrences_from id earlier repos ∧
      Forall2 (is_flush_of parseRepo minAge) refs (flushes (trace out)) ∧
      ((returned out).1 = None →
         refs = first_occurrences_from id earlier repos ∧
         holds (returned out).2 (earlier ++ repos)).
Proof.
  induction repos as [|r repos IH]; intros flushed earlier w Hholds; cbv zeta.
  - exists []. split_and!; [done|constructor|]. intros _.
    split; [done|]. by rewrite app_nil_r.
  - simpl first_occurrences_from. unfold id at 1 3.
    destruct (index flushed r) eqn:Hidx.
    + rewrite flush_repos_skip by done.
      rewrite decide_True by (by eapply holds_true).
      destruct (IH flushed earlier w Hholds) as (refs & Hpre & Hall & Hok).
      exists refs. split_and!; [done|done|]. intros Hnone.
      destruct (Hok Hnone) as [-> Hh]. split; [done|].
      eapply holds_equiv; [done|]. apply (holds_true _ _ _ Hholds) in Hidx.
      set_solver.
    + rewrite decide_False by (by eapply holds_false).
      destruct (parseRepo r) as [[org project]|err] eqn:Hp.
      * destruct (engine_FlushSearchCache p org project minAge w) as [e w1] eqn:He.
        destruct (flush_repos_request r repos flushed w org project e w1 Hidx Hp He)
          as (warn & Hwarn & ->). cbv zeta.
        destruct (IH (<[r:=true]> flushed) (earlier ++ [r]) w1
                    (holds_insert _ _ _ Hholds)) as (refs & Hpre & Hall & Hok).
        exists (r :: refs).
        rewrite returned_triple, trace_triple.
        rewrite flushes_Klog, flushes_EvFlushSearchCache, flushes_app, Hwarn.
        split_and!.
        -- by apply prefix_cons.
        -- constructor; [|done]. split; [by rewrite Hp|done].
        -- intros Hnone. destruct (Hok Hnone) as [-> Hh]. split; [done|].
           by rewrite <- app_assoc in Hh.
      * rewrite (flush_repos_unparsable r repos flushed w err Hidx Hp).
        exists []. split_and!; [apply prefix_nil|constructor|done].
Qed.

Lemma flush_rules_unknown tid tids flushed w err :
  LookupRule p tid = inr err →
  flush_rules (tid :: tids) flushed w = (Some err, w, []).
Proof. intros Hl. simpl. by rewrite Hl. Qed.

Lemma flush_rules_known tid tids flushed w t :
  LookupRule p tid = inl t →
  flush_rules (tid :: tids) flushed w =
  let out1 := flush_repos (Rule_Repos t) flushed w in
  match (returned out1).1 with
  | Some err => (Some err, world_after out1, trace out1)
  | None =>
      let out2 := flush_rules tids (returned out1).2 (world_after out1) in
      (returned out2, world_after out2, trace out1 ++ trace out2)
  end.
Proof.
  intros Hl. simpl. rewrite Hl. unfold bind, ret.
  destruct (flush_repos (Rule_Repos t) flushed w) as [[[[err|] fl] w1] tr1];
    cbv zeta; unfold returned, world_after, trace; simpl.
  - by rewrite app_nil_r.
  - by destruct (flush_rules tids fl w1) as [[res w2] tr2].
Qed.

Lemma flush_rules_flushes tids :
  ∀ flushed earlier w,
    holds flushed earlier →
    let out := flush_rules tids flushed w in
    ∃ refs,
      refs `prefix_of` first_occurrences_from id earlier (repos_of p tids) ∧
      Forall2 (is_flush_of parseRepo minAge) refs (flushes (trace out)) ∧
      (returned out = None →
         refs = first_occurrences_from id earlier (repos_of p tids)).
Proof.
  induction tids as [|tid tids IH]; intros flushed earlier w Hholds; cbv zeta.
  - exists []. split_and!; [done|constructor|done].
  - change (repos_of p (tid :: tids))
      with (match LookupRule p tid with
            | inl t => Rule_Repos t
            | inr _ => []
            end ++ repos_of p tids).
    destruct (LookupRule p tid) as [t|err] eqn:Hl.
    + rewrite (flush_rules_known tid tids flushed w t Hl). cbv zeta.
      rewrite first_occurrences_app, list_fmap_id.
      destruct (flush_repos_flushes (Rule_Repos t) flushed earlier w Hholds)
        as (refs1 & Hpre1 & Hall1 & Hok1).
      destruct ((returned (flush_repos (Rule_Repos t) flushed w)).1)
        as [err|] eqn:Hres.
      * exists refs1. rewrite returned_triple, trace_triple.
        split_and!; [by apply prefix_app_r|done|done].
      * destruct (Hok1 eq_refl) as [-> Hh].
        destruct (IH _ _ (world_after (flush_repos (Rule_Repos t) flushed w)) Hh)
          as (refs2 & Hpre2 & Hall2 & Hok2).
        exists (first_occurrences_from id earlier (Rule_Repos t) ++ refs2).
        rewrite returned_triple, trace_triple, flushes_app.
        split_and!.
        -- by apply prefix_app.
        -- by apply Forall2_app.
        -- intros Hnone. by rewrite (Hok2 Hnone).
    + rewrite (flush_rules_unknown tid tids flushed w err Hl).
      exists []. split_and!; [apply prefix_nil|constructor|done].
Qed.

(** C9, amended. In every run [FlushSearchCache] requests a flush for
    distinct repository references only, at most once each, in the order
    in which the rules of the collection first name them; and whenever it
    returns no error - the collection and its rules resolve and the
    references parse - it has requested exactly one flush for each
    distinct reference across all of the collection's rules, however
    many rules name it. *)
Theorem flushes_each_repository_once (cid : string) (w : World) :
  let run := FlushSearchCache parseRepo p cid minAge w in
  let refs :=
    first_occurrences id (repos_of p (RuleIDs (LookupCollection p cid).1)) in
  ∃ requested,
    requested `prefix_of` refs ∧
    NoDup requested ∧
    Forall2 (is_flush_of parseRepo minAge) requested (flushes (trace run)) ∧
    (returned run = None → requested = refs).
Proof.
  intros run refs. subst run refs. unfold FlushSearchCache.
  assert (Hnd : ∀ l, NoDup (first_occurrences id (l : list string))).
  { intros l. pose proof (first_occurrences_NoDup id l []) as Hnd.
    by rewrite list_fmap_id in Hnd. }
  destruct (LookupCollection p cid) as [s [err|]]; simpl fst.
  - exists []. split_and!; [apply prefix_nil|constructor|constructor|done].
  - destruct (flush_rules_flushes (RuleIDs s) ∅ [] w holds_empty)
      as (requested & Hpre & Hall & Hok).
    exists requested. split_and!; [done| |done|done].
    destruct Hpre as [k Hk]. specialize (Hnd (repos_of p (RuleIDs s))).
    unfold first_occurrences in Hnd. rewrite Hk in Hnd.
    by apply NoDup_app in Hnd as [? _].
Qed.

End Flush.

(** C9 as stated fails. The one rule of this collection names a reference
    that does not parse and then a repository: the run stops at the first
    and never requests a flush for the second. *)
Lemma unparsable_reference_stops_flushing :
  let run := scenario.flush_run "bad-repo" in
  (LookupCollection scenario.party "bad-repo").1 = scenario.bad_repo ∧
  first_occurrences id (repos_of scenario.party (RuleIDs scenario.bad_repo)) =
    ["not-a-repo"; "org/proj"] ∧
  returned run = Some (Errorf "unable to parse %q" [VString "not-a-repo"]) ∧
  flushes (trace run) = [] ∧
  ¬ Forall2 (is_flush_of scenario.parse Hour)
      (first_occurrences id (repos_of scenario.party (RuleIDs scenario.bad_repo)))
      (flushes (trace run)).
Proof.
  cbv zeta. split_and!; [reflexivity|reflexivity|reflexivity|reflexivity|].
  change (¬ Forall2 (is_flush_of scenario.parse Hour) ["not-a-repo"; "org/proj"] []).
  intros H. inversion H.
Qed.

(** C9, amended, at work: two rules share a repository, and it is
    flushed once. *)
Lemma flushes_each_repository_once_witness :
  let run := scenario.flush_run "shared-repo" in
  repos_of scenario.party (RuleIDs scenario.shared_repo) =
    ["org/proj"; "org/proj"; "org/other"] ∧
  returned run = None ∧
  flushes (trace run) = [("org", "proj", Hour); ("org", "other", Hour)] ∧
  Forall2 (is_flush_of scenario.parse Hour) ["org/proj"; "org/other"]
    (flushes (trace run)).
Proof.
  cbv zeta.
  assert (Hnone : returned (scenario.flush_run "shared-repo") = None)
    by reflexivity.
  refine (conj eq_refl (conj Hnone (conj eq_refl _))).
  destruct (flushes_each_repository_once scenario.parse scenario.party Hour
              "shared-repo" 0) as (requested & _ & _ & Hall & Hok).
  rewrite (Hok Hnone) in Hall. exact Hall.
Defined.

(** C7 at work on two rules that matched nothing. *)
Lemma no_items_no_averages_witness :
  let r := scenario.summarize scenario.nothing_matched in
  item_count scenario.nothing_matched = 0 ∧
  Total r = 0 ∧ AvgAge r = 0 ∧ AvgCurrentHold r = 0 ∧ AvgAccumulatedHold r = 0.
Proof.
  cbv zeta.
  destruct (no_items_no_averages scenario.PullRequest scenario.amd64
              scenario.nothing_matched) as (Hnone & _).
  refine (conj eq_refl _). exact (Hnone eq_refl).
Defined.

(** C10 at work on the rule results of ten and five days. *)
Lemma Total_is_pull_requests_plus_issues_witness :
  let r := scenario.summarize scenario.ten_and_five in
  item_count scenario.ten_and_five ≤ max_int64 ∧
  Total r = TotalPullRequests r + TotalIssues r.
Proof.
  cbv zeta.
  assert (Hle : item_count scenario.ten_and_five ≤ max_int64)
    by (vm_compute; discriminate).
  destruct (Total_is_pull_requests_plus_issues scenario.PullRequest scenario.amd64
              scenario.ten_and_five) as (_ & _ & _ & _ & Hsum).
  exact (conj Hle (Hsum Hle)).
Defined.

End triage_facts.

(** * Further properties *)

(** ** First occurrences, continued *)

Section first_occurrences_more.

Context {A : Type} (key : A → string).

Implicit Types (l : list A) (earlier : list string).

Lemma first_occurrences_keys l :
  ∀ earlier k,
    k ∈ key <$> first_occurrences_from key earlier l ↔
    k ∈ key <$> l ∧ k ∉ earlier.
Proof.
  induction l as [|a rest IH]; intros earlier k; simpl.
  - set_solver.
  - case_decide as Hin.
    + rewrite IH, ?fmap_cons. set_solver.
    + rewrite ?fmap_cons, !elem_of_cons, IH.
      destruct (decide (k = key a)) as [->|Hne]; set_solver.
Qed.

Lemma first_occurrences_filter l :
  ∀ e e',
    first_occurrences_from key (e ++ e') l =
    filter (λ x, key x ∉ e) (first_occurrences_from key e' l).
Proof.
  induction l as [|a rest IH]; intros e e'; simpl; [done|].
  destruct (decide (key a ∈ e')) as [He'|He'].
  - rewrite decide_True by set_solver. apply IH.
  - destruct (decide (key a ∈ e)) as [He|He].
    + rewrite decide_True by set_solver.
      rewrite filter_cons_False by (intros Hn; by apply Hn).
      rewrite <- IH. apply first_occurrences_ext. set_solver.
    + rewrite decide_False by set_solver.
      rewrite filter_cons_True by done. f_equal.
      rewrite <- IH. by rewrite <- app_assoc.
Qed.

Lemma first_occurrences_filter_seen l :
  filter (λ x, key x ∉ key <$> l) (first_occurrences key l) = [].
Proof.
  unfold first_occurrences.
  rewrite <- (first_occurrences_filter l (key <$> l) []), app_nil_r.
  assert (Hall : ∀ k e, (∀ x, x ∈ k → key x ∈ e) →
            first_occurrences_from key e k = []).
  { induction k as [|a k IH]; intros e He; simpl; [done|].
    rewrite decide_True by (apply He; set_solver). apply IH. set_solver. }
  apply Hall. intros x Hx. by apply list_elem_of_fmap_2.
Qed.

End first_occurrences_more.

(** ** Strings *)

Lemma list_ascii_of_string_app (s1 s2 : string) :
  String.list_ascii_of_string (s1 +:+ s2) =
  String.list_ascii_of_string s1 ++ String.list_ascii_of_string s2.
Proof.
  induction s1 as [|a s1 IH]; [done|].
  change (String a s1 +:+ s2) with (String a (s1 +:+ s2)). simpl. by rewrite IH.
Qed.

Lemma list_ascii_of_string_inj (s1 s2 : string) :
  String.list_ascii_of_string s1 = String.list_ascii_of_string s2 → s1 = s2.
Proof.
  intros H. rewrite <- (String.string_of_list_ascii_of_string s1),
    <- (String.string_of_list_ascii_of_string s2). by rewrite H.
Qed.

Lemma string_app_inj_r (s1 s2 suf : string) :
  s1 +:+ suf = s2 +:+ suf → s1 = s2.
Proof.
  intros H. apply list_ascii_of_string_inj.
  apply (f_equal String.list_ascii_of_string) in H.
  rewrite !list_ascii_of_string_app in H. by apply app_inv_tail in H.
Qed.

Lemma string_app_suffix (s1 suf s : string) :
  s1 +:+ suf = s →
  String.list_ascii_of_string suf `suffix_of` String.list_ascii_of_string s.
Proof.
  intros <-. rewrite list_ascii_of_string_app. by eexists.
Qed.

(** ** The tag registry, continued *)

Module tag_more.

Import tag tag_facts.

(** X1. [Dedup] loses no identity and invents none: an identity occurs
    in the output exactly when it occurs in the input. *)
Theorem Dedup_preserves_identities (tags : list Tag) (id : string) :
  id ∈ ID <$> Dedup tags ↔ id ∈ ID <$> tags.
Proof.
  rewrite Dedup_first_occurrences. unfold first_occurrences.
  rewrite first_occurrences_keys. set_solver.
Qed.

(** X2. The sequences [Dedup] leaves as they are are exactly those in
    which no identity repeats. *)
Theorem Dedup_fixed_iff_distinct (tags : list Tag) :
  Dedup tags = tags ↔ NoDup (ID <$> tags).
Proof.
  rewrite Dedup_first_occurrences. unfold first_occurrences. split.
  - intros <-. apply first_occurrences_NoDup.
  - intros Hnd. apply first_occurrences_fixed; [done|]. set_solver.
Qed.

(** X3. [Dedup] of a concatenation is [Dedup] of the first part followed
    by what [Dedup] of the second part has that the first part has not;
    in particular a sequence appended to itself deduplicates to the
    same. *)
Theorem Dedup_app (l1 l2 : list Tag) :
  Dedup (l1 ++ l2) =
    Dedup l1 ++ filter (λ t, ID t ∉ ID <$> l1) (Dedup l2) ∧
  Dedup (l1 ++ l1) = Dedup l1.
Proof.
  assert (Happ : ∀ k1 k2 : list Tag,
    Dedup (k1 ++ k2) = Dedup k1 ++ filter (λ t, ID t ∉ ID <$> k1) (Dedup k2)).
  { intros k1 k2. rewrite !Dedup_first_occurrences. unfold first_occurrences.
    rewrite first_occurrences_app. f_equal. simpl.
    rewrite <- (first_occurrences_filter ID k2 (ID <$> k1) []).
    by rewrite app_nil_r. }
  split; [apply Happ|].
  rewrite Happ, !Dedup_first_occurrences.
  by rewrite first_occurrences_filter_seen, app_nil_r.
Qed.

(** X4. [RoleLast] builds the tag of identity "<role>-last" with the
    role in its description and no data dependency, and distinct roles
    get distinct identities. *)
Theorem RoleLast_identity (role role' : string) :
  ID (RoleLast role) = role +:+ "-last" ∧
  Desc (RoleLast role) = "The last commenter was a project " +:+ role ∧
  NeedsComments (RoleLast role) = false ∧
  NeedsReviews (RoleLast role) = false ∧
  NeedsTimeline (RoleLast role) = false ∧
  (ID (RoleLast role) = ID (RoleLast role') ↔ role = role').
Proof.
  split_and!; try done. split; [|by intros ->].
  apply string_app_inj_r.
Qed.

Lemma RoleLast_collides (role id : string) :
  id ∈ ID <$> Tags → role +:+ "-last" = id → role = "author".
Proof.
  intros Hin Heq.
  assert (Hall : Forall (λ id,
            id = "author-last" ∨
            ¬ String.list_ascii_of_string "-last"
                `suffix_of` String.list_ascii_of_string id) (ID <$> Tags)).
  { apply (bool_decide_unpack _). by vm_compute. }
  rewrite Forall_forall in Hall. destruct (Hall id Hin) as [->|Hno].
  - by apply (string_app_inj_r role "author" "-last").
  - exfalso. apply Hno. by eapply string_app_suffix.
Qed.

(** X5. A role tag is never one of the registry's tags, and its identity
    is in the registry for exactly one role, the author, where it meets
    the tag [AuthorLast]. Merged after the registry and deduplicated, the
    author's role tag is dropped and every other role tag is kept. *)
Theorem RoleLast_and_the_registry (role : string) :
  (RoleLast role ∉ Tags) ∧
  (ID (RoleLast role) ∈ ID <$> Tags ↔ role = "author") ∧
  Dedup (Tags ++ [RoleLast role]) =
    (if decide (role = "author") then Tags else Tags ++ [RoleLast role]).
Proof.
  assert (Hid : ID (RoleLast role) ∈ ID <$> Tags ↔ role = "author").
  { split.
    - intros Hin. by eapply RoleLast_collides.
    - intros ->. apply (bool_decide_unpack _). by vm_compute. }
  split_and!; [|done|].
  - intros Hin.
    assert (Hrole : role = "author").
    { apply Hid. by apply list_elem_of_fmap_2. }
    subst role. revert Hin. apply (bool_decide_unpack _). by vm_compute.
  - rewrite Dedup_first_occurrences. unfold first_occurrences.
    rewrite first_occurrences_app, app_nil_l.
    rewrite (first_occurrences_fixed ID Tags []); [| |set_solver].
    2:{ apply (bool_decide_unpack _). by vm_compute. }
    change (first_occurrences_from ID (ID <$> Tags) [RoleLast role])
      with (if decide (ID (RoleLast role) ∈ ID <$> Tags)
            then [] else [RoleLast role]).
    destruct (decide (role = "author")) as [Ha|Ha].
    + rewrite decide_True by (by apply Hid). by rewrite app_nil_r.
    + rewrite decide_False; [done|]. by rewrite Hid.
Qed.

(** X6. Every review-based tag of the registry has a timeline-based twin
    in the registry: the same description under the identity prefixed
    with "pr-", requiring the timeline and nothing else. *)
Theorem review_tags_have_timeline_twins (t : Tag) :
  t ∈ Tags → NeedsReviews t = true →
  mkTag ("pr-" +:+ ID t) (Desc t) false false true ∈ Tags.
Proof.
  assert (Hall : Forall (λ t, NeedsReviews t = true →
            mkTag ("pr-" +:+ ID t) (Desc t) false false true ∈ Tags) Tags).
  { apply (bool_decide_unpack _). by vm_compute. }
  intros Hin. by apply (proj1 (Forall_forall _ _) Hall t).
Qed.

Lemma review_tags_have_timeline_twins_witness :
  Approved ∈ Tags ∧ NeedsReviews Approved = true ∧ XrefApproved ∈ Tags.
Proof.
  assert (Hin : Approved ∈ Tags) by (apply (list_elem_of_lookup_2 _ 12%nat); done).
  exact (conj Hin (conj eq_refl
           (review_tags_have_timeline_twins Approved Hin eq_refl))).
Defined.

End tag_more.

(** ** The collection orchestrator, continued *)

Module triage_more.

Import triage triage_facts.

(** *** Looking collections up *)

Section Collections.

Context {Conversation Context World : Type}.
Variable p : Party Conversation Context World.

Lemma LookupCollection_loop_found (cs : list Collection) (id : string) s :
  LookupCollection_loop cs id = (s, None) ↔
  ID s = id ∧ ∃ i, first_at ID cs i s.
Proof.
  unfold first_at. induction cs as [|c cs IH]; simpl.
  - split; [done|]. intros (_ & i & Hi & _). by rewrite lookup_nil in Hi.
  - destruct (String.eqb_spec (ID c) id) as [Heq|Hne].
    + split.
      * intros [= <-]. split; [done|]. exists 0%nat. split; [done|]. intros; lia.
      * intros (Hid & [|i] & Hi & Hbefore); simpl in Hi.
        -- by injection Hi as <-.
        -- exfalso. apply (Hbefore 0%nat c); [lia|done|congruence].
    + rewrite IH. split.
      * intros (Hid & i & Hi & Hbefore). split; [done|]. exists (S i).
        split; [done|]. intros [|j] s' Hj Hl; simpl in Hl.
        -- injection Hl as <-. congruence.
        -- eapply Hbefore; [|done]. lia.
      * intros (Hid & [|i] & Hi & Hbefore); simpl in Hi.
        -- injection Hi as <-. congruence.
        -- split; [done|]. exists i. split; [done|].
           intros j s' Hj Hl. apply (Hbefore (S j) s'); [lia|done].
Qed.

Lemma LookupCollection_loop_absent (cs : list Collection) (id : string) :
  id ∉ ID <$> cs →
  LookupCollection_loop cs id = (zero_Collection, Some (not_found id)).
Proof.
  induction cs as [|c cs IH]; simpl; [done|]. intros Hnot.
  destruct (String.eqb_spec (ID c) id) as [Heq|Hne]; [set_solver|].
  apply IH. set_solver.
Qed.

Lemma LookupCollection_loop_present (cs : list Collection) (id : string) :
  id ∈ ID <$> cs →
  ∃ s, LookupCollection_loop cs id = (s, None) ∧ ID s = id ∧ s ∈ cs.
Proof.
  induction cs as [|c cs IH]; simpl; [by intros ?%elem_of_nil|]. intros Hin.
  destruct (String.eqb_spec (ID c) id) as [Heq|Hne].
  - exists c. set_solver.
  - destruct IH as (s & Hs & Hid & Hcs); [set_solver|].
    exists s. set_solver.
Qed.

(** X7. [LookupCollection] returns a collection without error exactly
    when that collection is the first of the loaded ones with the
    identity asked for. *)
Theorem LookupCollection_finds_first (id : string) (s : Collection) :
  LookupCollection p id = (s, None) ↔
  ID s = id ∧ ∃ i, first_at ID (collections p) i s.
Proof. apply LookupCollection_loop_found. Qed.

(** X8. [LookupCollection] fails exactly when no loaded collection has
    the identity: it then returns the zero collection and the error that
    names the missing identity; it returns no error exactly when some
    loaded collection has the identity, and then one with that
    identity. *)
Theorem LookupCollection_not_found (id : string) :
  (id ∉ ID <$> collections p ↔
   LookupCollection p id = (zero_Collection, Some (not_found id))) ∧
  (id ∈ ID <$> collections p ↔ (LookupCollection p id).2 = None) ∧
  (id ∈ ID <$> collections p →
   ID (LookupCollection p id).1 = id ∧
   (LookupCollection p id).1 ∈ collections p).
Proof.
  unfold LookupCollection.
  assert (Hpresent : id ∈ ID <$> collections p →
            (LookupCollection_loop (collections p) id).2 = None ∧
            ID (LookupCollection_loop (collections p) id).1 = id ∧
            (LookupCollection_loop (collections p) id).1 ∈ collections p).
  { intros (s & -> & Hid & Hin)%LookupCollection_loop_present. done. }
  split_and!.
  - split; [apply LookupCollection_loop_absent|].
    intros Hres Hin. apply Hpresent in Hin as [Hnone _].
    by rewrite Hres in Hnone.
  - split; [intros Hin; by apply Hpresent in Hin as [? _]|].
    intros Hnone. destruct (decide (id ∈ ID <$> collections p)); [done|].
    by rewrite LookupCollection_loop_absent in Hnone.
  - intros Hin. by apply Hpresent in Hin as [_ ?].
Qed.

(** X9. When the loaded collections have pairwise distinct identities,
    every collection [ListCollections] lists is what [LookupCollection]
    returns for its identity; [ListCollections] never fails. *)
Theorem listed_collections_are_found (s : Collection) :
  NoDup (ID <$> collections p) → s ∈ (ListCollections p).1 →
  (ListCollections p).2 = None ∧ LookupCollection p (ID s) = (s, None).
Proof.
  unfold ListCollections, LookupCollection. simpl. intros Hnd Hin.
  split; [done|]. induction (collections p) as [|c cs IH]; simpl.
  - by apply elem_of_nil in Hin.
  - rewrite fmap_cons in Hnd. apply NoDup_cons in Hnd as [Hc Hnd].
    apply elem_of_cons in Hin as [->|Hin].
    + by rewrite String.eqb_refl.
    + destruct (String.eqb_spec (ID c) (ID s)) as [Heq|Hne]; [|by apply IH].
      exfalso. apply Hc. rewrite Heq. by apply list_elem_of_fmap_2.
Qed.

End Collections.

Lemma listed_collections_are_found_witness :
  NoDup (ID <$> collections scenario.party) ∧
  scenario.shared_repo ∈ (ListCollections scenario.party).1 ∧
  LookupCollection scenario.party "shared-repo" = (scenario.shared_repo, None).
Proof.
  assert (Hnd : NoDup (ID <$> collections scenario.party))
    by (apply (bool_decide_unpack _); by vm_compute).
  assert (Hin : scenario.shared_repo ∈ (ListCollections scenario.party).1)
    by (apply (list_elem_of_lookup_2 _ 5%nat); done).
  exact (conj Hnd (conj Hin
           (proj2 (listed_collections_are_found scenario.party
                     scenario.shared_repo Hnd Hin)))).
Defined.

(** *** Aggregation, continued *)

Lemma logged_WARNING_INFO f a (tr : list event) :
  logged WARNING (Klog INFO f a :: tr) = logged WARNING tr.
Proof. done. Qed.

Lemma logged_WARNING_Klog f a (tr : list event) :
  logged WARNING (Klog WARNING f a :: tr) = (f, a) :: logged WARNING tr.
Proof. done. Qed.

Lemma logged_INFO_Klog f a (tr : list event) :
  logged INFO (Klog INFO f a :: tr) = (f, a) :: logged INFO tr.
Proof. done. Qed.

Section Aggregation_more.

Context {Conversation : Type}.
Variable hubbub_PullRequest : string.
Variable unrepresentable : float → Z.

Abbreviation RuleResult' := (RuleResult Conversation).
Abbreviation summary os :=
  (SummarizeCollectionResult (Conversation := Conversation)
     hubbub_PullRequest unrepresentable os).1.
Abbreviation summary_log os :=
  (SummarizeCollectionResult (Conversation := Conversation)
     hubbub_PullRequest unrepresentable os).2.

Lemma item_count_if_Permutation f (os os' : list RuleResult') :
  os ≡ₚ os' → item_count_if f os = item_count_if f os'.
Proof. induction 1; simpl; lia. Qed.

(** X10. The three item counts do not depend on the order of the rule
    results. *)
Theorem counts_ignore_order (os os' : list RuleResult') :
  os ≡ₚ os' →
  let r := (SummarizeCollectionResult hubbub_PullRequest unrepresentable os).1 in
  let r' := (SummarizeCollectionResult hubbub_PullRequest unrepresentable os').1 in
  Total r = Total r' ∧
  TotalPullRequests r = TotalPullRequests r' ∧
  TotalIssues r = TotalIssues r'.
Proof.
  intros Hperm r r'. subst r r'.
  destruct (Summarize_folded_counts hubbub_PullRequest unrepresentable os)
    as (-> & -> & -> & _).
  destruct (Summarize_folded_counts hubbub_PullRequest unrepresentable os')
    as (-> & -> & -> & _).
  unfold item_count. by rewrite !(item_count_if_Permutation _ os os' Hperm).
Qed.

(** X11. The counts of a concatenation are the sums, in [int]
    arithmetic, of the counts of its parts, and its rule results are
    those of the parts in order. *)
Theorem counts_of_concatenation (os1 os2 : list RuleResult') :
  Total (summary (os1 ++ os2)) =
    int_add (Total (summary os1)) (Total (summary os2)) ∧
  TotalPullRequests (summary (os1 ++ os2)) =
    int_add (TotalPullRequests (summary os1)) (TotalPullRequests (summary os2)) ∧
  TotalIssues (summary (os1 ++ os2)) =
    int_add (TotalIssues (summary os1)) (TotalIssues (summary os2)) ∧
  RuleResults (summary (os1 ++ os2)) =
    RuleResults (summary os1) ++ RuleResults (summary os2).
Proof.
  destruct (Summarize_folded_counts hubbub_PullRequest unrepresentable os1)
    as (-> & -> & -> & ->).
  destruct (Summarize_folded_counts hubbub_PullRequest unrepresentable os2)
    as (-> & -> & -> & ->).
  destruct (Summarize_folded_counts hubbub_PullRequest unrepresentable (os1 ++ os2))
    as (-> & -> & -> & ->).
  unfold item_count, int_add.
  rewrite !item_count_if_app, !wrap64_add_l, !wrap64_add_r. done.
Qed.

Lemma Summarize_loop_log (os : list RuleResult') :
  ∀ r,
    let log := (Summarize_loop hubbub_PullRequest os r).2 in
    logged WARNING log = [] ∧ length (logged INFO log) = length os.
Proof.
  induction os as [|oc os IH]; intros r; [done|].
  specialize (IH (Summarize_step hubbub_PullRequest r oc)).
  cbn [Summarize_loop]. cbv zeta in *.
  destruct (Summarize_loop hubbub_PullRequest os
              (Summarize_step hubbub_PullRequest r oc)) as [r' log].
  destruct IH as [Hw Hi]. split; [exact Hw|].
  change (S (length (logged INFO log)) = S (length os)). by f_equal.
Qed.

(** X12. [SummarizeCollectionResult] logs the warning that there is no
    summary exactly when the total it returns is zero, and nothing else
    at that severity; at the lowest severity it logs one line for the
    call and one for each rule result. *)
Theorem no_summary_warning (os : list RuleResult') :
  logged WARNING (summary_log os) =
    (if Total (summary os) =? 0 then [("no summary, total=0", [])] else []) ∧
  length (logged INFO (summary_log os)) = S (length os).
Proof.
  unfold SummarizeCollectionResult.
  pose proof (Summarize_loop_log os zero_CollectionResult) as Hlog.
  destruct (Summarize_loop hubbub_PullRequest os zero_CollectionResult) as [r log].
  cbv zeta in Hlog. cbn [snd] in Hlog. destruct Hlog as [Hw Hi].
  destruct (Z.eqb_spec (Total r) 0) as [H0|H0]; cbn [fst snd].
  - rewrite (proj2 (Z.eqb_eq _ _) H0).
    rewrite !logged_app, logged_WARNING_INFO, logged_INFO_Klog, Hw.
    split; [done|]. rewrite length_app. cbn [length]. rewrite Hi. simpl. lia.
  - change (Total (set_averages unrepresentable r)) with (Total r).
    rewrite (proj2 (Z.eqb_neq _ _) H0).
    rewrite logged_WARNING_INFO, logged_INFO_Klog, Hw.
    cbn [length]. by rewrite Hi.
Qed.

Lemma SFtrunc_floor_nonpos (x : spec_float) (h : Z) :
  SFtrunc x = Some h → ∃ f, SFfloor x = Some f ∧ f ≤ h ≤ f + 1.
Proof.
  destruct x as [s|s| |s m e]; simpl; try done.
  - intros [= <-]. exists 0. split; [done|lia].
  - intros [= <-]. eexists. split; [done|].
    destruct (Z.leb_spec 0 e) as [He|He]; [lia|].
    assert (Hpos : 0 < 2 ^ (- e)) by (apply Z.pow_pos_nonneg; lia).
    set (d := 2 ^ (- e)) in *.
    destruct s.
    + pose proof (Z.quot_opp_l (Z.pos m) d ltac:(lia)) as Hq.
      change (- Z.pos m) with (Z.neg m) in Hq. rewrite Hq.
      rewrite Z.quot_div_nonneg by lia.
      pose proof (Z.mul_div_le (Z.neg m) d Hpos).
      pose proof (Z.mul_succ_div_gt (Z.neg m) d Hpos).
      pose proof (Z.mul_div_le (Z.pos m) d Hpos).
      pose proof (Z.mul_succ_div_gt (Z.pos m) d Hpos).
      nia.
    + rewrite Z.quot_div_nonneg by lia. lia.
Qed.

(** X13. Whenever the fractional-hours value is finite and its integer
    part, the value with the fraction discarded, lies within 2562047
    hours of zero, [avgDayDuration] is that many hours: a negative value
    is rounded toward zero, at most one hour above its floor. *)
Theorem avgDayDuration_rounds_toward_zero (total : float) (count h : Z) :
  float64_trunc (fractional_hours total count) = Some h →
  -2562047 ≤ h ≤ 2562047 →
  avgDayDuration unrepresentable total count = h * Hour ∧
  ∃ f, float64_floor (fractional_hours total count) = Some f ∧ f ≤ h ≤ f + 1.
Proof.
  intros Htrunc Hh. split; [|by apply SFtrunc_floor_nonpos].
  unfold avgDayDuration, int64_of_float64.
  change (PrimFloat.mul (PrimFloat.div total (float64_of_int count)) 24)
    with (fractional_hours total count).
  rewrite Htrunc.
  assert (Hrange : (min_int64 <=? h) && (h <=? max_int64) = true).
  { apply andb_true_intro. unfold min_int64, max_int64. split; apply Z.leb_le; lia. }
  rewrite Hrange. unfold int64_mul. apply wrap64_id.
  unfold min_int64, max_int64, Hour, Minute, Second, Millisecond, Microsecond,
    Nanosecond. lia.
Qed.

End Aggregation_more.

Lemma counts_ignore_order_witness :
  let os := scenario.ten_and_five in
  os ≡ₚ reverse os ∧
  Total (scenario.summarize os) = Total (scenario.summarize (reverse os)).
Proof.
  cbv zeta.
  assert (Hperm : scenario.ten_and_five ≡ₚ reverse scenario.ten_and_five)
    by (symmetry; apply reverse_Permutation).
  exact (conj Hperm
           (proj1 (counts_ignore_order scenario.PullRequest scenario.amd64
                     _ _ Hperm))).
Defined.

(** A sixteenth of a day below zero over one item: minus an hour and a
    half, which becomes minus one hour, not minus two. *)
Lemma avgDayDuration_rounds_toward_zero_witness :
  float64_trunc (fractional_hours (-0.0625)%float 1) = Some (-1) ∧
  -2562047 ≤ -1 ≤ 2562047 ∧
  float64_floor (fractional_hours (-0.0625)%float 1) = Some (-2) ∧
  avgDayDuration scenario.amd64 (-0.0625)%float 1 = -1 * Hour.
Proof.
  assert (Hh : -2562047 ≤ -1 ≤ 2562047) by lia.
  refine (conj eq_refl (conj Hh (conj eq_refl _))).
  exact (proj1 (avgDayDuration_rounds_toward_zero scenario.amd64
                  (-0.0625)%float 1 (-1) eq_refl Hh)).
Defined.

(** *** Executing a collection, continued *)

Section Execution_more.

Context {Conversation Context World : Type}.
Variable hubbub_PullRequest : string.
Variable unrepresentable : float → Z.
Variable time_Now : World → Z * World.
Variable p : Party Conversation Context World.
Variable ctx : Context.

Abbreviation loop' := (ExecuteCollection_loop p ctx).
Abbreviation Execute' :=
  (ExecuteCollection hubbub_PullRequest unrepresentable time_Now p ctx).
Abbreviation Summary :=
  (SummarizeCollectionResult (Conversation := Conversation)
     hubbub_PullRequest unrepresentable).

Implicit Types (s : Collection) (tids : list string) (w : World)
  (os : list (RuleResult Conversation)) (seen : gmap string Rule)
  (seenRule : gmap string bool).

(** Case analysis on the iteration for [tid]. *)
Ltac loop_cases s tid tids os seen seenRule w :=
  let Hidx := fresh "Hidx" in
  let Hl := fresh "Hlookup" in
  let He := fresh "Hexec" in
  destruct (index seenRule tid) eqn:Hidx;
  [ rewrite (loop_duplicate p ctx s tid tids os seen seenRule w Hidx)
  | let t := fresh "t" in
    let err := fresh "err" in
    destruct (LookupRule p tid) as [t|err] eqn:Hl;
    [ let ro := fresh "ro" in
      let seen' := fresh "seen'" in
      let w1 := fresh "w1" in
      destruct (ExecuteRule p ctx t seen w) as [[[ro|err] seen'] w1] eqn:He;
      [ rewrite (loop_evaluated p ctx s tid tids os seen seenRule w t ro seen' w1
                   Hidx Hl He)
      | rewrite (loop_failed p ctx s tid tids os seen seenRule w t err seen' w1
                   Hidx Hl He) ]
    | rewrite (loop_unknown p ctx s tid tids os seen seenRule w err Hidx Hl) ] ];
  cbv zeta; rewrite ?returned_triple, ?world_after_triple, ?trace_triple.

(** A failed evaluation is the last thing the loop does. *)
Lemma loop_fails_last s tids :
  ∀ os seen seenRule w tid' t' err',
    let out := loop' s tids os seen seenRule w in
    EvExecuteRule tid' t' (Some err') ∈ trace out →
    last (trace out) = Some (EvExecuteRule tid' t' (Some err')).
Proof.
  induction tids as [|tid tids IH]; intros os seen seenRule w tid' t' err'.
  - simpl. by intros ?%elem_of_nil.
  - cbv zeta. loop_cases s tid tids os seen seenRule w.
    + intros [[=]|Hin]%elem_of_cons.
      pose proof (IH _ _ _ _ _ _ _ Hin) as Hlast.
      destruct (trace (loop' s tids os seen seenRule w)); [done|].
      by rewrite last_cons_cons.
    + intros [[=]|Hin]%elem_of_cons.
      pose proof (IH _ _ _ _ _ _ _ Hin) as Hlast.
      destruct (trace (loop' s tids (os ++ [ro]) seen' (<[tid:=true]> seenRule) w1));
        [done|].
      by rewrite last_cons_cons.
    + intros [[= -> -> ->]|[]%elem_of_nil]%elem_of_cons. done.
    + by intros ?%elem_of_nil.
Qed.

(** Only rules that the identifiers of the list resolve to are
    evaluated. *)
Lemma loop_evaluates_resolved s tids :
  ∀ os seen seenRule w tid' t' e',
    EvExecuteRule tid' t' e' ∈ trace (loop' s tids os seen seenRule w) →
    tid' ∈ tids ∧ LookupRule p tid' = inl t'.
Proof.
  induction tids as [|tid tids IH]; intros os seen seenRule w tid' t' e'.
  - simpl. by intros ?%elem_of_nil.
  - loop_cases s tid tids os seen seenRule w.
    + intros [[=]|Hin]%elem_of_cons. apply IH in Hin. set_solver.
    + intros [[= -> -> ->]|Hin]%elem_of_cons; [set_solver|].
      apply IH in Hin. set_solver.
    + intros [[= -> -> ->]|[]%elem_of_nil]%elem_of_cons. set_solver.
    + by intros ?%elem_of_nil.
Qed.

(** X14. [ExecuteCollection] returns either a result and no error or an
    error and no result, never both and never neither. *)
Theorem result_or_error s w :
  (∃ r, returned (Execute' s w) = (Some r, None)) ∨
  (∃ e, returned (Execute' s w) = (None, Some e)).
Proof.
  destruct (ExecuteCollection_run hubbub_PullRequest unrepresentable time_Now
              p ctx s w) as (_ & _ & _ & Hret).
  destruct (returned (loop' s (RuleIDs s) [] ∅ ∅ (time_Now w).2));
    [left|right]; by eexists.
Qed.

(** X15. The result [ExecuteCollection] returns is the summary of its own
    rule results with the time stamp set, so what holds of summaries
    holds of it: its total is the sum of its pull requests and its
    issues. *)
Theorem result_is_stamped_summary s w r :
  returned (Execute' s w) = (Some r, None) →
  r = set_Time (Time r) (Summary (RuleResults r)).1 ∧
  Total r = int_add (TotalPullRequests r) (TotalIssues r).
Proof.
  destruct (ExecuteCollection_run hubbub_PullRequest unrepresentable time_Now
              p ctx s w) as (_ & _ & _ & Hret).
  destruct (returned (loop' s (RuleIDs s) [] ∅ ∅ (time_Now w).2)) as [os|e];
    intros Hr; rewrite Hr in Hret; [|done].
  injection Hret as ->.
  destruct (Summarize_folded_counts hubbub_PullRequest unrepresentable os)
    as (HT & HP & HI & HR).
  change (RuleResults (set_Time _ (Summary os).1)) with (RuleResults (Summary os).1).
  rewrite HR. split; [done|].
  change (Total (Summary os).1 =
          int_add (TotalPullRequests (Summary os).1) (TotalIssues (Summary os).1)).
  rewrite HT, HP, HI. unfold int_add.
  rewrite wrap64_add_l, wrap64_add_r. f_equal. apply item_count_split.
Qed.

(** X16. A collection without rules is executed without error: nothing
    is evaluated and the result is the empty summary, stamped, with its
    warning logged. *)
Theorem empty_collection_succeeds s w :
  RuleIDs s = [] →
  returned (Execute' s w) =
    (Some (set_Time (time_Now (time_Now w).2).1 zero_CollectionResult), None) ∧
  executed (trace (Execute' s w)) = [] ∧
  ("no summary, total=0", []) ∈ logged WARNING (trace (Execute' s w)).
Proof.
  intros Hnone.
  unfold ExecuteCollection, time_Since, bind, klog, now, lift, ret.
  rewrite Hnone. simpl ExecuteCollection_loop. unfold ret.
  destruct (time_Now w) as [start w0]. cbn [fst snd].
  destruct (time_Now w0) as [t w1]. cbn [fst snd].
  destruct (time_Now w1) as [t' w2].
  unfold returned, trace. cbn. split_and!; [done|done|]. set_solver.
Qed.

(** X17. A failed evaluation is the last event of a run: after it no
    rule is evaluated and nothing more is logged. *)
Theorem failed_evaluation_ends_run s w tid t err :
  EvExecuteRule tid t (Some err) ∈ trace (Execute' s w) →
  last (trace (Execute' s w)) = Some (EvExecuteRule tid t (Some err)).
Proof.
  intros Hin.
  destruct (ExecuteCollection_run hubbub_PullRequest unrepresentable time_Now
              p ctx s w) as (_ & _ & Hev & _).
  apply Hev in Hin.
  pose proof (loop_evaluation_error p ctx s _ _ _ _ _ _ _ _ Hin) as Hret.
  pose proof (loop_fails_last s _ _ _ _ _ _ _ _ Hin) as Hlast.
  cbv zeta in Hret, Hlast. revert Hret Hlast.
  unfold ExecuteCollection, time_Since, bind, klog, now, lift, ret.
  destruct (time_Now w) as [start w0]. cbn [fst snd].
  destruct (loop' s (RuleIDs s) [] ∅ ∅ w0) as [[res w1] tr].
  unfold returned, trace. cbn [fst snd]. intros -> Hlast.
  cbn. rewrite app_nil_r. destruct tr; [done|]. by rewrite last_cons_cons.
Qed.

(** X18. Whatever [ExecuteCollection] evaluates is the rule that
    [LookupRule] resolves for an identifier of the collection. *)
Theorem evaluates_only_resolved_rules s w tid t e :
  EvExecuteRule tid t e ∈ trace (Execute' s w) →
  tid ∈ RuleIDs s ∧ LookupRule p tid = inl t.
Proof.
  intros Hin.
  destruct (ExecuteCollection_run hubbub_PullRequest unrepresentable time_Now
              p ctx s w) as (_ & _ & Hev & _).
  apply Hev in Hin. by apply loop_evaluates_resolved in Hin.
Qed.

(** X19. Of a collection only the rule identifiers matter to the run:
    two collections with the same rule identifiers, whatever their
    identities, names and flags, are executed to the same returned
    values, the same world and the same evaluations. *)
Theorem only_rule_identifiers_matter s s' w :
  RuleIDs s = RuleIDs s' →
  returned (Execute' s w) = returned (Execute' s' w) ∧
  world_after (Execute' s w) = world_after (Execute' s' w) ∧
  executed (trace (Execute' s w)) = executed (trace (Execute' s' w)).
Proof.
  intros Hids.
  destruct (ExecuteCollection_run hubbub_PullRequest unrepresentable time_Now
              p ctx s w) as (-> & _ & _ & _).
  destruct (ExecuteCollection_run hubbub_PullRequest unrepresentable time_Now
              p ctx s' w) as (-> & _ & _ & _).
  unfold ExecuteCollection, time_Since, bind, klog, now, lift, ret.
  rewrite <- Hids.
  destruct (loop_collection_independent p ctx s s' (RuleIDs s) [] ∅ ∅ (time_Now w).2)
    as (Hr & Hw & He).
  destruct (time_Now w) as [start w0]. cbn [fst snd] in *.
  destruct (loop' s (RuleIDs s) [] ∅ ∅ w0) as [[res w1] tr].
  destruct (loop' s' (RuleIDs s) [] ∅ ∅ w0) as [[res' w1'] tr'].
  unfold returned, world_after, trace in *. cbn [fst snd] in *. subst res' w1'.
  split_and!; [| |done].
  - destruct res as [os|e]; [|done]. cbn [fst snd].
    destruct (time_Now w1) as [t w2]. cbn [fst snd].
    by destruct (time_Now w2) as [t' w3].
  - destruct res as [os|e]; [|done]. cbn [fst snd].
    destruct (time_Now w1) as [t w2]. cbn [fst snd].
    by destruct (time_Now w2) as [t' w3].
Qed.

End Execution_more.

Lemma result_is_stamped_summary_witness :
  ∃ r, returned (scenario.run scenario.duplicated) = (Some r, None) ∧
    r = set_Time (Time r)
          (SummarizeCollectionResult scenario.PullRequest scenario.amd64
             (RuleResults r)).1 ∧
    Total r = int_add (TotalPullRequests r) (TotalIssues r).
Proof.
  eexists. split; [vm_compute; reflexivity|].
  apply (result_is_stamped_summary scenario.PullRequest scenario.amd64
           scenario.clock scenario.party tt scenario.duplicated 0).
  vm_compute. reflexivity.
Defined.

Lemma empty_collection_succeeds_witness :
  RuleIDs scenario.no_rules = [] ∧
  returned (scenario.run scenario.no_rules) =
    (Some (set_Time 1 zero_CollectionResult), None) ∧
  executed (trace (scenario.run scenario.no_rules)) = [].
Proof.
  destruct (empty_collection_succeeds scenario.PullRequest scenario.amd64
              scenario.clock scenario.party tt scenario.no_rules 0 eq_refl)
    as (Hr & He & _).
  exact (conj eq_refl (conj Hr He)).
Defined.

Lemma failed_evaluation_ends_run_witness :
  EvExecuteRule "flaky" scenario.rule_flaky (Some (ErrorString "rate limit exceeded"))
    ∈ trace (scenario.run scenario.with_flaky) ∧
  last (trace (scenario.run scenario.with_flaky)) =
    Some (EvExecuteRule "flaky" scenario.rule_flaky
            (Some (ErrorString "rate limit exceeded"))).
Proof.
  assert (Hin :
    EvExecuteRule "flaky" scenario.rule_flaky (Some (ErrorString "rate limit exceeded"))
      ∈ trace (scenario.run scenario.with_flaky)).
  { apply (list_elem_of_lookup_2 _ 2%nat). reflexivity. }
  exact (conj Hin
           (failed_evaluation_ends_run scenario.PullRequest scenario.amd64
              scenario.clock scenario.party tt scenario.with_flaky 0 _ _ _ Hin)).
Defined.

Lemma evaluates_only_resolved_rules_witness :
  EvExecuteRule "b" scenario.rule_b None ∈ trace (scenario.run scenario.duplicated) ∧
  "b" ∈ RuleIDs scenario.duplicated ∧
  LookupRule scenario.party "b" = inl scenario.rule_b.
Proof.
  assert (Hin : EvExecuteRule "b" scenario.rule_b None
                  ∈ trace (scenario.run scenario.duplicated)).
  { apply (list_elem_of_lookup_2 _ 3%nat). reflexivity. }
  exact (conj Hin
           (evaluates_only_resolved_rules scenario.PullRequest scenario.amd64
              scenario.clock scenario.party tt scenario.duplicated 0 _ _ _ Hin)).
Defined.

Lemma only_rule_identifiers_matter_witness :
  RuleIDs scenario.first_broken = RuleIDs scenario.second_broken ∧
  ID scenario.first_broken ≠ ID scenario.second_broken ∧
  returned (scenario.run scenario.first_broken) =
    returned (scenario.run scenario.second_broken).
Proof.
  refine (conj eq_refl (conj _ _)); [discriminate|].
  exact (proj1 (only_rule_identifiers_matter scenario.PullRequest scenario.amd64
                  scenario.clock scenario.party tt scenario.first_broken
                  scenario.second_broken 0 eq_refl)).
Defined.

(** *** Flushing the search cache, continued *)

Lemma failed_flushes_app (tr1 tr2 : list event) :
  failed_flushes (tr1 ++ tr2) = failed_flushes tr1 ++ failed_flushes tr2.
Proof. apply flat_map_app. Qed.

Lemma failed_flushes_Klog sev f a (tr : list event) :
  failed_flushes (Klog sev f a :: tr) = failed_flushes tr.
Proof. done. Qed.

Lemma failed_flushes_refused org project minAge err (tr : list event) :
  failed_flushes (EvFlushSearchCache org project minAge (Some err) :: tr) =
  (org, project, err) :: failed_flushes tr.
Proof. done. Qed.

Lemma failed_flushes_accepted org project minAge (tr : list event) :
  failed_flushes (EvFlushSearchCache org project minAge None :: tr) =
  failed_flushes tr.
Proof. done. Qed.

Lemma logged_EvFlushSearchCache sev org project minAge e (tr : list event) :
  logged sev (EvFlushSearchCache org project minAge e :: tr) = logged sev tr.
Proof. by destruct sev. Qed.

Section Flush_more.

Context {Conversation Context World : Type}.
Variable parseRepo : string → (string * string) + error.
Variable minAge : Z.

Abbreviation Party' := (Party Conversation Context World).
Abbreviation repos_loop := (FlushSearchCache_repos (Conversation := Conversation)
  (Context := Context) (World := World) parseRepo).
Abbreviation rules_loop := (FlushSearchCache_rules (Conversation := Conversation)
  (Context := Context) (World := World) parseRepo).
Abbreviation Flush := (FlushSearchCache (Conversation := Conversation)
  (Context := Context) (World := World) parseRepo).

Implicit Types (p : Party') (repos tids earlier : list string) (w : World)
  (flushed : gmap string bool).

(** The iteration that requests a flush, with the warning it logs when
    the cache answers with an error. *)
Lemma flush_repos_requested p r repos flushed w org project e w1 :
  index flushed r = false → parseRepo r = inl (org, project) →
  engine_FlushSearchCache p org project minAge w = (e, w1) →
  repos_loop p minAge (r :: repos) flushed w =
  let out := repos_loop p minAge repos (<[r := true]> flushed) w1 in
  (returned out, world_after out,
   Klog INFO "Flushing search cache for %s ..." [VString r]
     :: EvFlushSearchCache org project minAge e
     :: match e with
        | Some err =>
            [Klog WARNING "flush for %s/%s: %v"
               [VString org; VString project; VError err]]
        | None => []
        end ++ trace out).
Proof.
  intros Hidx Hp He. simpl. rewrite Hidx. simpl.
  unfold bind, klog, call_FlushSearchCache, ret. rewrite Hp, He.
  destruct e; simpl;
    by destruct (repos_loop p minAge repos (<[r:=true]> flushed) w1)
      as [[res w'] tr].
Qed.

(** Case analysis on the iteration of the inner loop for [r]. *)
Ltac repos_cases p r repos flushed w :=
  let Hidx := fresh "Hidx" in
  let Hp := fresh "Hparse" in
  let He := fresh "Hengine" in
  destruct (index flushed r) eqn:Hidx;
  [ rewrite (flush_repos_skip parseRepo p minAge r repos flushed w Hidx)
  | let org := fresh "org" in
    let project := fresh "project" in
    let err := fresh "err" in
    destruct (parseRepo r) as [[org project]|err] eqn:Hp;
    [ let e := fresh "e" in
      let w1 := fresh "w1" in
      destruct (engine_FlushSearchCache p org project minAge w) as [e w1] eqn:He;
      rewrite (flush_repos_requested p r repos flushed w org project e w1
                 Hidx Hp He)
    | rewrite (flush_repos_unparsable parseRepo p minAge r repos flushed w err
                 Hidx Hp) ] ];
  cbv zeta; rewrite ?returned_triple, ?world_after_triple, ?trace_triple.

Lemma flush_repos_succeeds p repos :
  ∀ flushed earlier w,
    holds flushed earlier → Forall (parses parseRepo) earlier →
    let out := repos_loop p minAge repos flushed w in
    ((returned out).1 = None ↔ Forall (parses parseRepo) repos) ∧
    ((returned out).1 = None → holds (returned out).2 (earlier ++ repos)).
Proof.
  induction repos as [|r repos IH]; intros flushed earlier w Hholds Hparsed;
    cbv zeta.
  - simpl. unfold ret, returned. simpl. rewrite app_nil_r. by split.
  - rewrite Forall_cons. repos_cases p r repos flushed w.
    + destruct (IH flushed earlier w Hholds Hparsed) as [Hiff Hh].
      apply (holds_true _ _ _ Hholds) in Hidx.
      split.
      * rewrite Hiff. rewrite Forall_forall in Hparsed. split; [|tauto].
        intros ?. split; [by apply Hparsed|done].
      * intros Hnone. eapply holds_equiv; [by apply Hh|]. set_solver.
    + destruct (IH (<[r:=true]> flushed) (earlier ++ [r]) w1
                  (holds_insert _ _ _ Hholds)) as [Hiff Hh].
      { apply Forall_app. split; [done|]. apply Forall_singleton. by do 2 eexists. }
      split.
      * rewrite Hiff. split; [|tauto]. intros ?. split; [by do 2 eexists|done].
      * intros Hnone. specialize (Hh Hnone). by rewrite <- app_assoc in Hh.
    + split; [|done]. split; [done|].
      intros [(org & project & Hp) _]. congruence.
Qed.

Lemma flush_rules_succeeds p tids :
  ∀ flushed earlier w,
    holds flushed earlier → Forall (parses parseRepo) earlier →
    returned (rules_loop p minAge tids flushed w) = None ↔
    Forall (resolves p) tids ∧ Forall (parses parseRepo) (repos_of p tids).
Proof.
  induction tids as [|tid tids IH]; intros flushed earlier w Hholds Hparsed.
  - simpl. unfold ret, returned. simpl. split; [|done]. intros _. by split.
  - change (repos_of p (tid :: tids))
      with (match LookupRule p tid with
            | inl t => Rule_Repos t
            | inr _ => []
            end ++ repos_of p tids).
    rewrite Forall_cons, Forall_app. unfold resolves at 1.
    destruct (LookupRule p tid) as [t|err] eqn:Hl.
    + rewrite (flush_rules_known parseRepo p minAge tid tids flushed w t Hl).
      cbv zeta.
      destruct (flush_repos_succeeds p (Rule_Repos t) flushed earlier w
                  Hholds Hparsed) as [Hiff Hh].
      destruct ((returned (repos_loop p minAge (Rule_Repos t) flushed w)).1)
        as [err|] eqn:Hres.
      * rewrite returned_triple. split; [done|].
        intros (_ & Hrepos & _). apply Hiff in Hrepos. done.
      * rewrite returned_triple.
        rewrite (IH _ (earlier ++ Rule_Repos t) _ (Hh eq_refl)).
        -- assert (Forall (parses parseRepo) (Rule_Repos t)) by (by apply Hiff).
           split; [|tauto]. intros [? ?]. split_and!; [by eexists|done..].
        -- apply Forall_app. split; [done|]. by apply Hiff.
    + rewrite (flush_rules_unknown parseRepo p minAge tid tids flushed w err Hl).
      rewrite returned_triple. split; [done|]. intros [[[t Ht] _] _]. done.
Qed.

Lemma flush_repos_warnings p repos :
  ∀ flushed w,
    let out := repos_loop p minAge repos flushed w in
    logged WARNING (trace out) = flush_warning <$> failed_flushes (trace out).
Proof.
  induction repos as [|r repos IH]; intros flushed w; cbv zeta; [done|].
  repos_cases p r repos flushed w.
  - apply IH.
  - rewrite logged_WARNING_INFO, logged_EvFlushSearchCache, failed_flushes_Klog.
    specialize (IH (<[r:=true]> flushed) w1). cbv zeta in IH.
    destruct e as [err|].
    + rewrite failed_flushes_refused.
      change ([Klog WARNING "flush for %s/%s: %v"
                 [VString org; VString project; VError err]] ++
              trace (repos_loop p minAge repos (<[r:=true]> flushed) w1))
        with (Klog WARNING "flush for %s/%s: %v"
                [VString org; VString project; VError err]
              :: trace (repos_loop p minAge repos (<[r:=true]> flushed) w1)).
      rewrite logged_WARNING_Klog, failed_flushes_Klog, fmap_cons, IH. done.
    + rewrite failed_flushes_accepted, app_nil_l. apply IH.
  - done.
Qed.

Lemma flush_rules_warnings p tids :
  ∀ flushed w,
    let out := rules_loop p minAge tids flushed w in
    logged WARNING (trace out) = flush_warning <$> failed_flushes (trace out).
Proof.
  induction tids as [|tid tids IH]; intros flushed w; cbv zeta; [done|].
  destruct (LookupRule p tid) as [t|err] eqn:Hl.
  - rewrite (flush_rules_known parseRepo p minAge tid tids flushed w t Hl).
    cbv zeta. pose proof (flush_repos_warnings p (Rule_Repos t) flushed w) as H1.
    cbv zeta in H1.
    destruct ((returned (repos_loop p minAge (Rule_Repos t) flushed w)).1).
    + by rewrite trace_triple.
    + rewrite trace_triple, logged_app, failed_flushes_app, fmap_app, H1.
      f_equal. apply IH.
  - by rewrite (flush_rules_unknown parseRepo p minAge tid tids flushed w err Hl).
Qed.

Lemma flush_repos_error p repos :
  ∀ flushed w e,
    (returned (repos_loop p minAge repos flushed w)).1 = Some e →
    ∃ r, r ∈ repos ∧ parseRepo r = inr e.
Proof.
  induction repos as [|r repos IH]; intros flushed w e.
  - simpl. unfold ret, returned. simpl. done.
  - repos_cases p r repos flushed w.
    + intros (r' & Hin & Hp)%IH. exists r'. set_solver.
    + intros (r' & Hin & Hp)%IH. exists r'. set_solver.
    + simpl. intros [= <-]. exists r. set_solver.
Qed.

Lemma flush_rules_error p tids :
  ∀ flushed w e,
    returned (rules_loop p minAge tids flushed w) = Some e →
    (∃ tid, tid ∈ tids ∧ LookupRule p tid = inr e) ∨
    (∃ r, r ∈ repos_of p tids ∧ parseRepo r = inr e).
Proof.
  induction tids as [|tid tids IH]; intros flushed w e.
  - simpl. unfold ret, returned. simpl. done.
  - change (repos_of p (tid :: tids))
      with (match LookupRule p tid with
            | inl t => Rule_Repos t
            | inr _ => []
            end ++ repos_of p tids).
    destruct (LookupRule p tid) as [t|err] eqn:Hl.
    + rewrite (flush_rules_known parseRepo p minAge tid tids flushed w t Hl).
      cbv zeta.
      destruct ((returned (repos_loop p minAge (Rule_Repos t) flushed w)).1)
        as [err|] eqn:Hres.
      * rewrite returned_triple. intros [= <-].
        apply flush_repos_error in Hres as (r & Hin & Hp).
        right. exists r. set_solver.
      * rewrite returned_triple.
        intros [(tid' & Hin & Hl')|(r & Hin & Hp)]%IH.
        -- left. exists tid'. set_solver.
        -- right. exists r. set_solver.
    + rewrite (flush_rules_unknown parseRepo p minAge tid tids flushed w err Hl).
      rewrite returned_triple. intros [= <-]. left. exists tid. set_solver.
Qed.

Lemma flush_repos_engine_independent p p' repos :
  ∀ flushed w w',
    returned (repos_loop p minAge repos flushed w) =
      returned (repos_loop p' minAge repos flushed w') ∧
    flushes (trace (repos_loop p minAge repos flushed w)) =
      flushes (trace (repos_loop p' minAge repos flushed w')).
Proof.
  induction repos as [|r repos IH]; intros flushed w w'; [done|].
  destruct (index flushed r) eqn:Hidx.
  - rewrite !(flush_repos_skip parseRepo _ minAge r repos flushed _ Hidx).
    apply IH.
  - destruct (parseRepo r) as [[org project]|err] eqn:Hp.
    + destruct (engine_FlushSearchCache p org project minAge w) as [e w1] eqn:He.
      destruct (engine_FlushSearchCache p' org project minAge w')
        as [e' w1'] eqn:He'.
      rewrite (flush_repos_requested p r repos flushed w org project e w1
                 Hidx Hp He).
      rewrite (flush_repos_requested p' r repos flushed w' org project e' w1'
                 Hidx Hp He').
      cbv zeta. rewrite !returned_triple, !trace_triple.
      rewrite !flushes_Klog, !flushes_EvFlushSearchCache, !flushes_app.
      destruct (IH (<[r:=true]> flushed) w1 w1') as [-> ->].
      by destruct e, e'.
    + by rewrite !(flush_repos_unparsable parseRepo _ minAge r repos flushed _ err
                     Hidx Hp).
Qed.

Lemma flush_rules_engine_independent p p' tids :
  (∀ tid, LookupRule p tid = LookupRule p' tid) →
  ∀ flushed w w',
    returned (rules_loop p minAge tids flushed w) =
      returned (rules_loop p' minAge tids flushed w') ∧
    flushes (trace (rules_loop p minAge tids flushed w)) =
      flushes (trace (rules_loop p' minAge tids flushed w')).
Proof.
  intros Hsame.
  induction tids as [|tid tids IH]; intros flushed w w'; [done|].
  destruct (LookupRule p tid) as [t|err] eqn:Hl.
  - assert (Hl' : LookupRule p' tid = inl t) by (by rewrite <- Hsame).
    rewrite (flush_rules_known parseRepo p minAge tid tids flushed w t Hl).
    rewrite (flush_rules_known parseRepo p' minAge tid tids flushed w' t Hl').
    cbv zeta.
    destruct (flush_repos_engine_independent p p' (Rule_Repos t) flushed w w')
      as [Hr Hf].
    rewrite <- Hr.
    destruct ((returned (repos_loop p minAge (Rule_Repos t) flushed w)).1).
    + by rewrite !returned_triple, !trace_triple.
    + rewrite !returned_triple, !trace_triple, !flushes_app, Hf.
      destruct (IH (returned (repos_loop p minAge (Rule_Repos t) flushed w)).2
                  (world_after (repos_loop p minAge (Rule_Repos t) flushed w))
                  (world_after (repos_loop p' minAge (Rule_Repos t) flushed w')))
        as [-> ->].
      done.
  - assert (Hl' : LookupRule p' tid = inr err) by (by rewrite <- Hsame).
    by rewrite (flush_rules_unknown parseRepo p minAge tid tids flushed w err Hl),
      (flush_rules_unknown parseRepo p' minAge tid tids flushed w' err Hl').
Qed.

(** X20. For an identity that no loaded collection has,
    [FlushSearchCache] returns the error that names it, requests no
    flush, logs nothing and leaves the world as it is. *)
Theorem flush_of_unknown_collection p (cid : string) w :
  cid ∉ ID <$> collections p →
  Flush p cid minAge w = (Some (not_found cid), w, []).
Proof.
  intros Hnot. unfold FlushSearchCache, LookupCollection.
  by rewrite (LookupCollection_loop_absent _ _ Hnot).
Qed.

(** X21. [FlushSearchCache] returns no error exactly when the collection
    is found, every one of its rule identifiers resolves and every
    repository reference of those rules parses. *)
Theorem flush_succeeds_iff p (cid : string) w :
  returned (Flush p cid minAge w) = None ↔
  (LookupCollection p cid).2 = None ∧
  Forall (resolves p) (RuleIDs (LookupCollection p cid).1) ∧
  Forall (parses parseRepo) (repos_of p (RuleIDs (LookupCollection p cid).1)).
Proof.
  unfold FlushSearchCache.
  destruct (LookupCollection p cid) as [s [err|]]; cbn [fst snd].
  - unfold ret, returned. simpl. split; [done|]. by intros [? _].
  - rewrite (flush_rules_succeeds p (RuleIDs s) ∅ [] w holds_empty); [|done].
    tauto.
Qed.

(** X22. What [FlushSearchCache] returns and which flushes it requests do
    not depend on how the search cache answers: two parties with the same
    collections and rules, in any two worlds, return the same and request
    the same. An error of the cache is never what ends the run. *)
Theorem flush_ignores_cache_errors p p' (cid : string) w w' :
  collections p = collections p' →
  (∀ tid, LookupRule p tid = LookupRule p' tid) →
  returned (Flush p cid minAge w) = returned (Flush p' cid minAge w') ∧
  flushes (trace (Flush p cid minAge w)) =
    flushes (trace (Flush p' cid minAge w')).
Proof.
  intros Hcs Hsame. unfold FlushSearchCache, LookupCollection. rewrite <- Hcs.
  destruct (LookupCollection_loop (collections p) cid) as [s [err|]]; [done|].
  by apply flush_rules_engine_independent.
Qed.

(** X23. Every flush the search cache answers with an error is logged as
    a warning naming the organization, the project and the error, in
    order, and [FlushSearchCache] logs no other warning. *)
Theorem flush_errors_are_warnings p (cid : string) w :
  logged WARNING (trace (Flush p cid minAge w)) =
  flush_warning <$> failed_flushes (trace (Flush p cid minAge w)).
Proof.
  unfold FlushSearchCache.
  destruct (LookupCollection p cid) as [s [err|]]; [done|].
  apply flush_rules_warnings.
Qed.

(** X24. An error [FlushSearchCache] returns is the one of the failed
    collection lookup, or the one [LookupRule] returned for a rule
    identifier of the collection, or the one [parseRepo] returned for a
    repository reference of its rules. *)
Theorem flush_error_origin p (cid : string) w e :
  returned (Flush p cid minAge w) = Some e →
  (LookupCollection p cid).2 = Some e ∨
  (∃ tid, tid ∈ RuleIDs (LookupCollection p cid).1 ∧ LookupRule p tid = inr e) ∨
  (∃ r, r ∈ repos_of p (RuleIDs (LookupCollection p cid).1) ∧
        parseRepo r = inr e).
Proof.
  unfold FlushSearchCache.
  destruct (LookupCollection p cid) as [s [err|]]; cbn [fst snd].
  - unfold ret, returned. simpl. intros [= <-]. by left.
  - intros He. right. by apply flush_rules_error in He.
Qed.

End Flush_more.

Lemma flush_of_unknown_collection_witness :
  ("nowhere" ∉ ID <$> collections scenario.party) ∧
  scenario.flush_run "nowhere" = (Some (not_found "nowhere"), 0, []).
Proof.
  assert (Hnot : "nowhere" ∉ ID <$> collections scenario.party)
    by (apply (bool_decide_unpack _); by vm_compute).
  exact (conj Hnot
           (flush_of_unknown_collection scenario.parse Hour scenario.party
              "nowhere" 0 Hnot)).
Defined.

(** The cache that refuses every flush changes neither the outcome nor
    the requests. *)
Lemma flush_ignores_cache_errors_witness :
  let run := FlushSearchCache scenario.parse scenario.party "shared-repo" Hour 0 in
  let run' :=
    FlushSearchCache scenario.parse scenario.party_without_cache "shared-repo"
      Hour 0 in
  failed_flushes (trace run) = [] ∧
  length (failed_flushes (trace run')) = 2%nat ∧
  returned run = returned run' ∧
  flushes (trace run) = flushes (trace run').
Proof.
  cbv zeta. refine (conj eq_refl (conj eq_refl _)).
  exact (flush_ignores_cache_errors scenario.parse Hour scenario.party
           scenario.party_without_cache "shared-repo" 0 0 eq_refl
           (fun _ => eq_refl)).
Defined.

Lemma flush_error_origin_witness :
  let e := Errorf "unable to parse %q" [VString "not-a-repo"] in
  returned (scenario.flush_run "bad-repo") = Some e ∧
  ((LookupCollection scenario.party "bad-repo").2 = Some e ∨
   (∃ tid, tid ∈ RuleIDs (LookupCollection scenario.party "bad-repo").1 ∧
           LookupRule scenario.party tid = inr e) ∨
   (∃ r, r ∈ repos_of scenario.party
               (RuleIDs (LookupCollection scenario.party "bad-repo").1) ∧
         scenario.parse r = inr e)).
Proof.
  cbv zeta.
  assert (Hret : returned (scenario.flush_run "bad-repo") =
                 Some (Errorf "unable to parse %q" [VString "not-a-repo"]))
    by reflexivity.
  exact (conj Hret
           (flush_error_origin scenario.parse Hour scenario.party "bad-repo" 0 _
              Hret)).
Defined.

End triage_more.
